(** * aeneas.syncmap.fragmentlist: the list of sync map fragments

    A shallow embedding of [SyncMapFragmentList]
    (src/aeneas/syncmap/fragmentlist.py) and the properties of its
    operations.  Time values are exact rationals compared numerically.  The
    list is a record threaded through a small state-and-exception monad; an
    exception leaves the state as it was at the [raise].  Python's
    dynamically typed arguments are given by small sum types.  Fragments are
    values stored in the list: two entries of the list never share one
    fragment object. *)

From Stdlib Require Import List Bool String ZArith QArith Qminmax Lia Lqa.
From Stdlib Require Import Permutation Sorted RelationClasses.
Import ListNotations.

Local Open Scope Q_scope.

(** * The model *)

(** ** Time values

    [aeneas.exacttiming.TimeValue] is an exact decimal number.  Its
    comparisons are numerical ([TimeValue("0.0") == TimeValue("0.00")]), as
    are those of [Q]. *)

Definition TimeValue : Type := Q.

Module TV.

Definition eqb (x y : TimeValue) : bool := Qeq_bool x y.
Definition leb (x y : TimeValue) : bool := Qle_bool x y.
Definition ltb (x y : TimeValue) : bool :=
  match x ?= y with Lt => true | _ => false end.
Definition gtb (x y : TimeValue) : bool := ltb y x.

End TV.

(** ** Python values and exceptions

    The arguments whose type the code tests with [isinstance] or compares
    with [None], and the exceptions the code raises, with their messages. *)

Inductive PyObject : Type :=
  | PyNone
  | PyTimeValue (t : TimeValue)
  | PyOther (repr : string).

Inductive Exception : Type :=
  | TypeError (msg : string)
  | ValueError (msg : string)
  | IndexError (msg : string).

Inductive Result (A : Type) : Type :=
  | Return (a : A)
  | Raise (e : Exception).

Arguments Return {A} a.
Arguments Raise {A} e.

(** ** Time intervals *)

Module TimeInterval.

(** Modelled from the spec: [aeneas.exacttiming.TimeInterval] is not among
    the sources.  A pair [(begin, end)] of time values; the attributes are
    plain fields that the list assigns to directly ([move_end]), so
    [begin <= end] is a separate predicate and not part of the type. *)
Record t : Type := mk { begin : TimeValue; end_ : TimeValue }.

Definition wf (i : t) : Prop := begin i <= end_ i.

(** Modelled from the spec: [length = end - begin]. *)
Definition length (i : t) : TimeValue := end_ i - begin i.

(** Modelled from the spec: [isDegenerate = (length == 0)]. *)
Definition has_zero_length (i : t) : bool := TV.eqb (length i) 0.

(** Modelled from the spec: the closed enumeration of relative positions,
    cross-classified by the shape of each operand (P for a point, I for an
    interval) and by the order of the endpoints compared (L less, C
    coincident, B at the begin, I inside, E at the end, G greater).  The
    constants are those named by [ALLOWED_POSITIONS] in the source,
    completed by the positions with a shared region. *)
Inductive RelativePosition : Type :=
  | RELATIVE_POSITION_PP_L | RELATIVE_POSITION_PP_C | RELATIVE_POSITION_PP_G
  | RELATIVE_POSITION_PI_LL | RELATIVE_POSITION_PI_LC | RELATIVE_POSITION_PI_LG
  | RELATIVE_POSITION_PI_CG | RELATIVE_POSITION_PI_GG
  | RELATIVE_POSITION_IP_L | RELATIVE_POSITION_IP_B | RELATIVE_POSITION_IP_I
  | RELATIVE_POSITION_IP_E | RELATIVE_POSITION_IP_G
  | RELATIVE_POSITION_II_LL | RELATIVE_POSITION_II_LB | RELATIVE_POSITION_II_LI
  | RELATIVE_POSITION_II_LE | RELATIVE_POSITION_II_LG | RELATIVE_POSITION_II_BI
  | RELATIVE_POSITION_II_BE | RELATIVE_POSITION_II_BG | RELATIVE_POSITION_II_II
  | RELATIVE_POSITION_II_IE | RELATIVE_POSITION_II_IG | RELATIVE_POSITION_II_EG
  | RELATIVE_POSITION_II_GG.

Definition RelativePosition_eqb (p q : RelativePosition) : bool :=
  match p, q with
  | RELATIVE_POSITION_PP_L, RELATIVE_POSITION_PP_L
  | RELATIVE_POSITION_PP_C, RELATIVE_POSITION_PP_C
  | RELATIVE_POSITION_PP_G, RELATIVE_POSITION_PP_G
  | RELATIVE_POSITION_PI_LL, RELATIVE_POSITION_PI_LL
  | RELATIVE_POSITION_PI_LC, RELATIVE_POSITION_PI_LC
  | RELATIVE_POSITION_PI_LG, RELATIVE_POSITION_PI_LG
  | RELATIVE_POSITION_PI_CG, RELATIVE_POSITION_PI_CG
  | RELATIVE_POSITION_PI_GG, RELATIVE_POSITION_PI_GG
  | RELATIVE_POSITION_IP_L, RELATIVE_POSITION_IP_L
  | RELATIVE_POSITION_IP_B, RELATIVE_POSITION_IP_B
  | RELATIVE_POSITION_IP_I, RELATIVE_POSITION_IP_I
  | RELATIVE_POSITION_IP_E, RELATIVE_POSITION_IP_E
  | RELATIVE_POSITION_IP_G, RELATIVE_POSITION_IP_G
  | RELATIVE_POSITION_II_LL, RELATIVE_POSITION_II_LL
  | RELATIVE_POSITION_II_LB, RELATIVE_POSITION_II_LB
  | RELATIVE_POSITION_II_LI, RELATIVE_POSITION_II_LI
  | RELATIVE_POSITION_II_LE, RELATIVE_POSITION_II_LE
  | RELATIVE_POSITION_II_LG, RELATIVE_POSITION_II_LG
  | RELATIVE_POSITION_II_BI, RELATIVE_POSITION_II_BI
  | RELATIVE_POSITION_II_BE, RELATIVE_POSITION_II_BE
  | RELATIVE_POSITION_II_BG, RELATIVE_POSITION_II_BG
  | RELATIVE_POSITION_II_II, RELATIVE_POSITION_II_II
  | RELATIVE_POSITION_II_IE, RELATIVE_POSITION_II_IE
  | RELATIVE_POSITION_II_IG, RELATIVE_POSITION_II_IG
  | RELATIVE_POSITION_II_EG, RELATIVE_POSITION_II_EG
  | RELATIVE_POSITION_II_GG, RELATIVE_POSITION_II_GG => true
  | _, _ => false
  end.

(** Modelled from the spec: [relative_position_of] classifies each operand
    as a point or an interval, then compares the endpoints of [other] with
    those of [self] to pick the sub-category: entirely before, touching,
    coincident endpoints, overlapping, nested, entirely after. *)
Definition relative_position_of (self other : t) : RelativePosition :=
  if has_zero_length self then
    if has_zero_length other then
      if TV.ltb (begin other) (begin self) then RELATIVE_POSITION_PP_L
      else if TV.eqb (begin other) (begin self) then RELATIVE_POSITION_PP_C
      else RELATIVE_POSITION_PP_G
    else
      if TV.ltb (end_ other) (begin self) then RELATIVE_POSITION_PI_LL
      else if TV.eqb (end_ other) (begin self) then RELATIVE_POSITION_PI_LC
      else if TV.ltb (begin other) (begin self) then RELATIVE_POSITION_PI_LG
      else if TV.eqb (begin other) (begin self) then RELATIVE_POSITION_PI_CG
      else RELATIVE_POSITION_PI_GG
  else
    if has_zero_length other then
      if TV.ltb (begin other) (begin self) then RELATIVE_POSITION_IP_L
      else if TV.eqb (begin other) (begin self) then RELATIVE_POSITION_IP_B
      else if TV.ltb (begin other) (end_ self) then RELATIVE_POSITION_IP_I
      else if TV.eqb (begin other) (end_ self) then RELATIVE_POSITION_IP_E
      else RELATIVE_POSITION_IP_G
    else
      if TV.ltb (begin other) (begin self) then
        if TV.ltb (end_ other) (begin self) then RELATIVE_POSITION_II_LL
        else if TV.eqb (end_ other) (begin self) then RELATIVE_POSITION_II_LB
        else if TV.ltb (end_ other) (end_ self) then RELATIVE_POSITION_II_LI
        else if TV.eqb (end_ other) (end_ self) then RELATIVE_POSITION_II_LE
        else RELATIVE_POSITION_II_LG
      else if TV.eqb (begin other) (begin self) then
        if TV.ltb (end_ other) (end_ self) then RELATIVE_POSITION_II_BI
        else if TV.eqb (end_ other) (end_ self) then RELATIVE_POSITION_II_BE
        else RELATIVE_POSITION_II_BG
      else if TV.ltb (begin other) (end_ self) then
        if TV.ltb (end_ other) (end_ self) then RELATIVE_POSITION_II_II
        else if TV.eqb (end_ other) (end_ self) then RELATIVE_POSITION_II_IE
        else RELATIVE_POSITION_II_IG
      else if TV.eqb (begin other) (end_ self) then RELATIVE_POSITION_II_EG
      else RELATIVE_POSITION_II_GG.

(** Modelled from the spec: [isAdjacentBefore(other)] is true iff
    [self.end == other.begin]. *)
Definition is_adjacent_before (self other : t) : bool :=
  TV.eqb (end_ self) (begin other).

(** Modelled from the spec: [shrink(amount)] moves [begin] forward by
    [amount]. *)
Definition shrink (quantity : TimeValue) (i : t) : t :=
  mk (begin i + quantity) (end_ i).

(** Modelled from the spec: [enlarge(amount)] moves [begin] backward by
    [amount]. *)
Definition enlarge (quantity : TimeValue) (i : t) : t :=
  mk (begin i - quantity) (end_ i).

(** Modelled from the spec: [move_end_at(point)] puts the end of the
    interval at [point] whatever its begin is.  The repair of section 4.5
    replays it on fragments that are "simply shifted, not enlarged" and
    reads the interval's begin afterwards "so the whole chain remains
    contiguous": the interval is moved as a whole and keeps its length. *)
Definition move_end_at (point : TimeValue) (i : t) : t :=
  mk (point - length i) point.

(** Modelled from the spec: [offset(delta, disallowNegative, clampLowerTo,
    clampUpperTo)] fails with a TypeError if [delta] is not a time value;
    otherwise both endpoints are moved by [delta], kept non-negative unless
    negative values are allowed, and clamped so that the result never goes
    below the lower bound and never exceeds the upper bound, where set. *)
Definition clamp (allow_negative : bool)
    (min_begin_value max_end_value : option TimeValue) (x : TimeValue)
    : TimeValue :=
  let x := if allow_negative then x else Qmax x 0 in
  let x := match min_begin_value with Some lo => Qmax x lo | None => x end in
  match max_end_value with Some hi => Qmin x hi | None => x end.

Definition offset (offset : PyObject) (allow_negative : bool)
    (min_begin_value max_end_value : option TimeValue) (i : t) : Result t :=
  match offset with
  | PyTimeValue d =>
      Return (mk (clamp allow_negative min_begin_value max_end_value (begin i + d))
                 (clamp allow_negative min_begin_value max_end_value (end_ i + d)))
  | _ => Raise (TypeError "offset is not an instance of TimeValue")
  end.

(** Numerical equality of intervals (Python's [==] on both endpoints). *)
Definition eq (i j : t) : Prop := begin i == begin j /\ end_ i == end_ j.

Definition eqb (i j : t) : bool :=
  TV.eqb (begin i) (begin j) && TV.eqb (end_ i) (end_ j).

(** Modelled from the spec: the order of intervals, by [begin], then by
    [end] for ties. *)
Definition ltb (i j : t) : bool :=
  TV.ltb (begin i) (begin j)
  || (TV.eqb (begin i) (begin j) && TV.ltb (end_ i) (end_ j)).

End TimeInterval.

(** ** Fragments *)

(** Modelled from the spec: [aeneas.syncmap.fragment.SyncMapFragment] is
    not among the sources.  A time interval and an opaque payload, ordered
    by the interval; [end] is the end of the interval. *)
Record SyncMapFragment : Type := mkFragment {
  interval : TimeInterval.t;
  payload : string
}.

(** Modelled from the spec: the [end] of a fragment is the end of its
    interval. *)
Definition fragment_end (f : SyncMapFragment) : TimeValue :=
  TimeInterval.end_ (interval f).

(** Modelled from the spec: [SyncMapFragment.__lt__], the order of the
    fragments is the order of their intervals. *)
Definition fragment_ltb (f g : SyncMapFragment) : bool :=
  TimeInterval.ltb (interval f) (interval g).

(** What a caller may pass where a fragment is expected. *)
Inductive PyFragment : Type :=
  | NotAFragment (repr : string)
  | FragmentWithoutInterval (payload : string)
  | Fragment (f : SyncMapFragment).

(** ** The list and its monad *)

Record SyncMapFragmentList : Type := mkList {
  begin : option TimeValue;
  end_ : option TimeValue;
  __sorted : bool;
  __fragments : list SyncMapFragment
}.

Definition M (A : Type) : Type :=
  SyncMapFragmentList -> Result A * SyncMapFragmentList.

Definition ret {A} (a : A) : M A := fun s => (Return a, s).
Definition raise {A} (e : Exception) : M A := fun s => (Raise e, s).
Definition bind {A B} (m : M A) (k : A -> M B) : M B :=
  fun s => match m s with
           | (Return a, s') => k a s'
           | (Raise e, s') => (Raise e, s')
           end.
Definition get : M SyncMapFragmentList := fun s => (Return s, s).
Definition put (s : SyncMapFragmentList) : M unit := fun _ => (Return tt, s).

Notation "x <- m ;; k" := (bind m (fun x => k))
  (at level 61, m at next level, right associativity).
Notation "m ;; k" := (bind m (fun _ => k))
  (at level 61, right associativity).

Definition set_fragments (l : list SyncMapFragment) : M unit :=
  s <- get ;; put (mkList (begin s) (end_ s) (__sorted s) l).

Definition set_sorted (b : bool) : M unit :=
  s <- get ;; put (mkList (begin s) (end_ s) b (__fragments s)).

Definition ALLOWED_POSITIONS : list TimeInterval.RelativePosition :=
  [ TimeInterval.RELATIVE_POSITION_PP_L;
    TimeInterval.RELATIVE_POSITION_PP_C;
    TimeInterval.RELATIVE_POSITION_PP_G;
    TimeInterval.RELATIVE_POSITION_PI_LL;
    TimeInterval.RELATIVE_POSITION_PI_LC;
    TimeInterval.RELATIVE_POSITION_PI_CG;
    TimeInterval.RELATIVE_POSITION_PI_GG;
    TimeInterval.RELATIVE_POSITION_IP_L;
    TimeInterval.RELATIVE_POSITION_IP_B;
    TimeInterval.RELATIVE_POSITION_IP_E;
    TimeInterval.RELATIVE_POSITION_IP_G;
    TimeInterval.RELATIVE_POSITION_II_LL;
    TimeInterval.RELATIVE_POSITION_II_LB;
    TimeInterval.RELATIVE_POSITION_II_EG;
    TimeInterval.RELATIVE_POSITION_II_GG ].

(** [p in self.ALLOWED_POSITIONS] *)
Definition allowed (p : TimeInterval.RelativePosition) : bool :=
  existsb (TimeInterval.RelativePosition_eqb p) ALLOWED_POSITIONS.

Definition __init__ (begin end_ : PyObject) : Result SyncMapFragmentList :=
  match begin with
  | PyOther _ => Raise (TypeError "begin is not an instance of TimeValue")
  | _ =>
    match end_ with
    | PyOther _ => Raise (TypeError "end is not an instance of TimeValue")
    | _ =>
      let ob := match begin with PyTimeValue b => Some b | _ => None end in
      let oe := match end_ with PyTimeValue e => Some e | _ => None end in
      match ob with
      | Some b =>
          if TV.ltb b 0 then Raise (ValueError "begin is negative")
          else match oe with
               | Some e =>
                   if TV.gtb b e then
                     Raise (ValueError "begin is bigger than end")
                   else Return (mkList ob oe true [])
               | None => Return (mkList ob oe true [])
               end
      | None => Return (mkList ob oe true [])
      end
    end
  end.

Definition __len__ : M Z :=
  s <- get ;; ret (Z.of_nat (List.length (__fragments s))).

(** The position in the list that a Python index denotes: negative indices
    count from the end, and an index outside the list is an IndexError. *)
Definition index_position (len index : Z) : option nat :=
  let k := (if index <? 0 then index + len else index)%Z in
  if ((0 <=? k) && (k <? len))%Z then Some (Z.to_nat k) else None.

Definition __getitem__ (index : Z) : M SyncMapFragment :=
  s <- get ;;
  match index_position (Z.of_nat (List.length (__fragments s))) index with
  | Some k =>
      match nth_error (__fragments s) k with
      | Some f => ret f
      | None => raise (IndexError "list index out of range")
      end
  | None => raise (IndexError "list index out of range")
  end.

Fixpoint list_set {A} (l : list A) (k : nat) (a : A) : list A :=
  match l, k with
  | [], _ => []
  | _ :: l', O => a :: l'
  | x :: l', S k' => x :: list_set l' k' a
  end.

Definition __setitem__ (index : Z) (value : SyncMapFragment) : M unit :=
  s <- get ;;
  match index_position (Z.of_nat (List.length (__fragments s))) index with
  | Some k => set_fragments (list_set (__fragments s) k value)
  | None => raise (IndexError "list assignment index out of range")
  end.

Definition _check_boundaries (fragment : PyFragment) : M unit :=
  match fragment with
  | NotAFragment _ =>
      raise (TypeError "fragment is not an instance of SyncMapFragment")
  | FragmentWithoutInterval _ =>
      raise (TypeError "interval is not an instance of TimeInterval")
  | Fragment f =>
      s <- get ;;
      if match begin s with
         | Some b => TV.ltb (TimeInterval.begin (interval f)) b
         | None => false
         end
      then raise (ValueError "interval.begin is before self.begin")
      else if match end_ s with
              | Some e => TV.gtb (TimeInterval.end_ (interval f)) e
              | None => false
              end
      then raise (ValueError "interval.end is after self.end")
      else ret tt
  end.

(** The loop of [_check_overlap] over the fragments of the list. *)
Fixpoint check_overlap_loop (existing : list SyncMapFragment)
    (fragment : SyncMapFragment) : M unit :=
  match existing with
  | [] => ret tt
  | existing_fragment :: rest =>
      if negb (allowed (TimeInterval.relative_position_of
                          (interval existing_fragment) (interval fragment)))
      then raise (ValueError "interval overlaps another already present interval")
      else check_overlap_loop rest fragment
  end.

Definition _check_overlap (fragment : SyncMapFragment) : M unit :=
  s <- get ;; check_overlap_loop (__fragments s) fragment.

Definition is_guaranteed_sorted : M bool :=
  s <- get ;; ret (__sorted s).

(** ** Sorting and sorted insertion *)

(** [bisect.bisect_right(a, x)]: the binary search of the standard library,
    [while lo < hi: mid = (lo + hi) // 2; if x < a[mid]: hi = mid; else:
    lo = mid + 1].  The first argument bounds [hi - lo], which decreases
    at every turn of the loop. *)
Fixpoint bisect_loop (n : nat) (a : list SyncMapFragment)
    (x : SyncMapFragment) (lo hi : nat) : nat :=
  match n with
  | O => lo
  | S n' =>
      if (lo <? hi)%nat then
        let mid := Nat.div2 (lo + hi) in
        if fragment_ltb x (nth mid a x) then bisect_loop n' a x lo mid
        else bisect_loop n' a x (S mid) hi
      else lo
  end.

Definition bisect_right (a : list SyncMapFragment) (x : SyncMapFragment)
    : nat :=
  bisect_loop (List.length a) a x 0 (List.length a).

(** [bisect.insort(a, x)]: [a.insert(bisect_right(a, x), x)]. *)
Definition insort (a : list SyncMapFragment) (x : SyncMapFragment)
    : list SyncMapFragment :=
  let lo := bisect_right a x in firstn lo a ++ x :: skipn lo a.

(** [sorted(l)]: Python's sort is stable and compares with [<] only; for
    the strict weak order of the fragments every stable sort returns the
    same list, computed here by stable insertion. *)
Fixpoint insert_after_le (x : SyncMapFragment) (l : list SyncMapFragment)
    : list SyncMapFragment :=
  match l with
  | [] => [x]
  | y :: l' =>
      if fragment_ltb x y then x :: y :: l' else y :: insert_after_le x l'
  end.

Definition sorted (l : list SyncMapFragment) : list SyncMapFragment :=
  fold_left (fun acc x => insert_after_le x acc) l [].

(** The loop of [sort] over the adjacent pairs [self[i]], [self[i + 1]]. *)
Fixpoint check_adjacent_loop (l : list SyncMapFragment) : M unit :=
  match l with
  | f :: ((g :: _) as rest) =>
      if negb (allowed (TimeInterval.relative_position_of
                          (interval f) (interval g)))
      then raise (ValueError
        "The list contains two time intervals overlapping in a forbidden way")
      else check_adjacent_loop rest
  | _ => ret tt
  end.

Definition sort : M unit :=
  is_sorted <- is_guaranteed_sorted ;;
  if negb is_sorted then
    s <- get ;;
    set_fragments (sorted (__fragments s)) ;;
    s <- get ;;
    check_adjacent_loop (__fragments s) ;;
    set_sorted true
  else ret tt.

Definition add (fragment : PyFragment) (sort : bool) : M unit :=
  _check_boundaries fragment ;;
  match fragment with
  | Fragment f =>
      if sort then
        is_sorted <- is_guaranteed_sorted ;;
        if negb is_sorted then
          raise (ValueError
            "Unable to add with sort=True if the list is not guaranteed sorted")
        else
          _check_overlap f ;;
          s <- get ;;
          set_fragments (insort (__fragments s) f)
      else
        s <- get ;;
        set_fragments (__fragments s ++ [f]) ;;
        set_sorted false
  | _ => ret tt
  end.

(** ** Moving a shared boundary *)

(** [value < bound], [value > bound] and [value <= bound] where [bound] is
    an attribute of the list that may be [None].  The source compares
    without testing for [None]: ordering a time value against [None] is a
    TypeError (Python 3; Python 2 would order [None] below every value). *)
Definition lt_bound (value : TimeValue) (bound : option TimeValue) : M bool :=
  match bound with
  | Some b => ret (TV.ltb value b)
  | None =>
      raise (TypeError "'<' not supported between 'TimeValue' and 'NoneType'")
  end.

Definition gt_bound (value : TimeValue) (bound : option TimeValue) : M bool :=
  match bound with
  | Some b => ret (TV.gtb value b)
  | None =>
      raise (TypeError "'>' not supported between 'TimeValue' and 'NoneType'")
  end.

Definition le_bound (value : TimeValue) (bound : option TimeValue) : M bool :=
  match bound with
  | Some b => ret (TV.leb value b)
  | None =>
      raise (TypeError "'<=' not supported between 'TimeValue' and 'NoneType'")
  end.

(** Assignment through [self[index].interval]: the fragment stored at
    [index] gets the interval [g] makes of its own. *)
Definition update_interval (index : Z)
    (g : TimeInterval.t -> TimeInterval.t) : M unit :=
  f <- __getitem__ index ;;
  __setitem__ index (mkFragment (g (interval f)) (payload f)).

Definition move_end (index : Z) (value : TimeValue) : M unit :=
  s <- get ;;
  below <- lt_bound value (begin s) ;;
  if below then ret tt else
  above <- gt_bound value (end_ s) ;;
  if above then ret tt else
  len <- __len__ ;;
  if ((index <? 0) || (index + 1 >=? len))%Z then ret tt else
  current_fragment <- __getitem__ index ;;
  next_fragment <- __getitem__ (index + 1) ;;
  if TV.gtb value (fragment_end next_fragment)
     || negb (TimeInterval.is_adjacent_before
                (interval current_fragment) (interval next_fragment))
  then ret tt
  else
    update_interval index
      (fun i => TimeInterval.mk (TimeInterval.begin i) value) ;;
    update_interval (index + 1)
      (fun i => TimeInterval.mk value (TimeInterval.end_ i)).

(** ** Offsetting *)

(** The loop of [offset]: the fragments before position [k] have been
    moved already when the call on the fragment at [k] raises. *)
Fixpoint offset_loop (n : nat) (k : Z) (offset : PyObject) : M unit :=
  match n with
  | O => ret tt
  | S n' =>
      s <- get ;;
      f <- __getitem__ k ;;
      match TimeInterval.offset offset false (begin s) (end_ s) (interval f) with
      | Return i =>
          __setitem__ k (mkFragment i (payload f)) ;;
          offset_loop n' (k + 1)%Z offset
      | Raise e => raise e
      end
  end.

Definition offset (offset : PyObject) : M unit :=
  s <- get ;; offset_loop (List.length (__fragments s)) 0%Z offset.

(** ** Repairing zero-length intervals *)

Inductive MoveType : Type := ENLARGE | MOVE.

Definition Move : Type := (Z * MoveType * option TimeValue)%type.

(** The inner loop [while (j < max_index) and (self[j].interval.length <
    slack)].  The first argument is [max_index - j], the number of turns
    left before [j] reaches [max_index]. *)
Fixpoint walk (n : nat) (offset : TimeValue) (max_index j : Z)
    (slack : TimeValue) (moves : list Move)
    : M (Z * TimeValue * list Move) :=
  match n with
  | O => ret (j, slack, moves)
  | S n' =>
      if (j <? max_index)%Z then
        fj <- __getitem__ j ;;
        if TV.ltb (TimeInterval.length (interval fj)) slack then
          if TimeInterval.has_zero_length (interval fj) then
            walk n' offset max_index (j + 1)%Z (slack + offset)
                 (moves ++ [(j, ENLARGE, Some offset)])
          else
            walk n' offset max_index (j + 1)%Z slack
                 (moves ++ [(j, MOVE, None)])
        else ret (j, slack, moves)
      else ret (j, slack, moves)
  end.

(** [for index, move_type, move_amount in moves[::-1]], given the moves
    already reversed. *)
Fixpoint replay (moves : list Move) (current_time : TimeValue) : M unit :=
  match moves with
  | [] => ret tt
  | (index, move_type, move_amount) :: rest =>
      update_interval index (TimeInterval.move_end_at current_time) ;;
      match move_type, move_amount with
      | ENLARGE, Some amount =>
          update_interval index (TimeInterval.enlarge amount)
      | _, _ => ret tt
      end ;;
      f <- __getitem__ index ;;
      replay rest (TimeInterval.begin (interval f))
  end.

(** The body of the outer loop for a fragment of zero length at [i]; the
    result is the [j] the inner loop stopped at. *)
Definition fix_at (offset : TimeValue) (max_index i : Z) : M Z :=
  r <- walk (Z.to_nat (max_index - (i + 1))) offset max_index (i + 1)%Z
            offset [(i, ENLARGE, Some offset)] ;;
  let '(j, slack, moves) := r in
  fixable <-
    (if (j =? max_index)%Z then
       last <- __getitem__ (j - 1) ;;
       s <- get ;;
       fits <- le_bound (fragment_end last + slack) (end_ s) ;;
       if fits then ret (Some (fragment_end last + slack)) else ret None
     else if (j <? max_index)%Z then
       update_interval j (TimeInterval.shrink slack) ;;
       fj <- __getitem__ j ;;
       ret (Some (TimeInterval.begin (interval fj)))
     else ret None) ;;
  match fixable with
  | Some current_time => replay (rev moves) current_time
  | None => ret tt
  end ;;
  ret j.

(** The outer loop [while i < max_index]; [i] grows at every turn, so
    [max_index - i] turns are enough. *)
Fixpoint scan (fuel : nat) (offset : TimeValue) (max_index i : Z) : M unit :=
  match fuel with
  | O => ret tt
  | S fuel' =>
      if (i <? max_index)%Z then
        fi <- __getitem__ i ;;
        if TimeInterval.has_zero_length (interval fi) then
          j <- fix_at offset max_index i ;;
          scan fuel' offset max_index (j - 1 + 1)%Z
        else scan fuel' offset max_index (i + 1)%Z
      else ret tt
  end.

(** [x or default] for an optional integer argument: [None] and [0] are
    falsy. *)
Definition or_default (x : option Z) (default : Z) : Z :=
  match x with
  | Some v => if (v =? 0)%Z then default else v
  | None => default
  end.

Definition fix_zero_length_intervals (offset : TimeValue)
    (min_index max_index : option Z) : M unit :=
  len <- __len__ ;;
  let min_index := or_default min_index 0%Z in
  let max_index := or_default max_index len in
  scan (Z.to_nat (max_index - min_index)) offset max_index min_index.

(** * The vocabulary of the properties *)

(** The test of [_check_boundaries] on a fragment with an interval. *)
Definition within_boundaries (s : SyncMapFragmentList) (f : SyncMapFragment)
    : Prop :=
  (forall b, begin s = Some b -> b <= TimeInterval.begin (interval f))
  /\ (forall e, end_ s = Some e -> TimeInterval.end_ (interval f) <= e).

Definition allowed_pair (a b : TimeInterval.t) : bool :=
  allowed (TimeInterval.relative_position_of a b).

(** Some fragment of [l] is in a forbidden position with respect to [f]. *)
Definition overlaps_any (l : list SyncMapFragment) (f : SyncMapFragment)
    : bool :=
  existsb (fun g => negb (allowed_pair (interval g) (interval f))) l.

(** The intersection of the two intervals has positive length. *)
Definition positive_intersection (a b : TimeInterval.t) : Prop :=
  Qmax (TimeInterval.begin a) (TimeInterval.begin b)
  < Qmin (TimeInterval.end_ a) (TimeInterval.end_ b).

(** The two intervals are disjoint but for a boundary point they may
    share: one ends where or before the other begins. *)
Definition touching_only (a b : TimeInterval.t) : Prop :=
  TimeInterval.end_ a <= TimeInterval.begin b
  \/ TimeInterval.end_ b <= TimeInterval.begin a.

Definition fragment_le (f g : SyncMapFragment) : Prop :=
  fragment_ltb g f = false.

(** The fragments are in ascending order. *)
Definition ascending (l : list SyncMapFragment) : Prop :=
  Sorted fragment_le l.

(** Every adjacent pair is in an allowed relative position. *)
Definition adjacent_allowed (l : list SyncMapFragment) : Prop :=
  Sorted (fun f g => allowed_pair (interval f) (interval g) = true) l.

(** What the binary search knows of [a] outside the window [lo, hi):
    nothing before [lo] is above [x], everything from [hi] on is. *)
Definition bisected (a : list SyncMapFragment) (x : SyncMapFragment)
    (lo hi : nat) : Prop :=
  (lo <= hi <= List.length a)%nat
  /\ (forall k, (k < lo)%nat -> fragment_ltb x (nth k a x) = false)
  /\ (forall k, (hi <= k < List.length a)%nat ->
                fragment_ltb x (nth k a x) = true).

(** The list after [move_end] has moved the boundary between the fragments
    at [k] and [k + 1] to [value]. *)
Definition boundary_moved (s : SyncMapFragmentList) (k : nat)
    (value : TimeValue) (d : SyncMapFragment) : SyncMapFragmentList :=
  let current_fragment := nth k (__fragments s) d in
  let next_fragment := nth (S k) (__fragments s) d in
  mkList (begin s) (end_ s) (__sorted s)
    (list_set
       (list_set (__fragments s) k
          (mkFragment
             (TimeInterval.mk (TimeInterval.begin (interval current_fragment))
                              value)
             (payload current_fragment)))
       (S k)
       (mkFragment
          (TimeInterval.mk value (TimeInterval.end_ (interval next_fragment)))
          (payload next_fragment))).

(** The preconditions of [move_end] on a list with both bounds set. *)
Definition move_end_applies (s : SyncMapFragmentList) (b e : TimeValue)
    (index : Z) (value : TimeValue) (d : SyncMapFragment) : bool :=
  negb (TV.ltb value b) && negb (TV.gtb value e)
  && (0 <=? index)%Z
  && (index + 1 <? Z.of_nat (List.length (__fragments s)))%Z
  && negb (TV.gtb value
             (fragment_end (nth (Z.to_nat (index + 1)) (__fragments s) d)))
  && TimeInterval.is_adjacent_before
       (interval (nth (Z.to_nat index) (__fragments s) d))
       (interval (nth (Z.to_nat (index + 1)) (__fragments s) d)).

(** ** Lists and fragments of the examples *)

Definition unbounded_fragment : SyncMapFragment :=
  mkFragment (TimeInterval.mk 0 2) "ab".

Definition short_list : SyncMapFragmentList :=
  mkList (Some 0) (Some 1) true [].

Definition two_appended : SyncMapFragmentList :=
  mkList (Some 0) None false
    [mkFragment (TimeInterval.mk 2 4) "b"; mkFragment (TimeInterval.mk 0 2) "a"].

Definition two_sorted : SyncMapFragmentList :=
  mkList (Some 0) None true
    [mkFragment (TimeInterval.mk 0 2) "a"; mkFragment (TimeInterval.mk 2 4) "b"].

Definition list_0_2 : SyncMapFragmentList :=
  mkList (Some 0) None true [mkFragment (TimeInterval.mk 0 2) "a"].

Definition fragment_5_6 : SyncMapFragment :=
  mkFragment (TimeInterval.mk 5 6) "a".
Definition fragment_7_8 : SyncMapFragment :=
  mkFragment (TimeInterval.mk 7 8) "b".
Definition fragment_1_2 : SyncMapFragment :=
  mkFragment (TimeInterval.mk 1 2) "c".
Definition fragment_8_9 : SyncMapFragment :=
  mkFragment (TimeInterval.mk 8 9) "d".

(** A list flagged as sorted whose second fragment was replaced through
    [__setitem__]. *)
Definition reassigned_list : SyncMapFragmentList :=
  mkList (Some 0) None true [fragment_5_6; fragment_1_2].

Definition open_ended_list : SyncMapFragmentList :=
  mkList (Some 0) None true
    [mkFragment (TimeInterval.mk 0 1) "a"; mkFragment (TimeInterval.mk 1 2) "b"].

Definition overlapping_appended : SyncMapFragmentList :=
  mkList (Some 0) None false
    [mkFragment (TimeInterval.mk 1 3) "a"; mkFragment (TimeInterval.mk 0 2) "b"].

(** ** The vocabulary of the further properties *)

(** Every fragment of the list is within the bounds of the list. *)
Definition all_within (s : SyncMapFragmentList) : Prop :=
  Forall (within_boundaries s) (__fragments s).

(** [s'] differs from [s] in the intervals of its fragments at most: same
    bounds, same flag, same payloads in the same order. *)
Definition same_frame (s s' : SyncMapFragmentList) : Prop :=
  begin s' = begin s /\ end_ s' = end_ s /\ __sorted s' = __sorted s
  /\ map payload (__fragments s') = map payload (__fragments s).

(** The preconditions of [move_end], on a list with bounds [b] and [e]. *)
Definition move_end_pre (s : SyncMapFragmentList) (b e : TimeValue)
    (index : Z) (value : TimeValue) (d : SyncMapFragment) : Prop :=
  b <= value /\ value <= e
  /\ (0 <= index)%Z
  /\ (index + 1 < Z.of_nat (List.length (__fragments s)))%Z
  /\ value <= fragment_end (nth (Z.to_nat (index + 1)) (__fragments s) d)
  /\ TimeInterval.end_ (interval (nth (Z.to_nat index) (__fragments s) d))
     == TimeInterval.begin
          (interval (nth (Z.to_nat (index + 1)) (__fragments s) d)).

(** Two overlapping fragments appended in ascending order. *)
Definition overlapping_in_order : SyncMapFragmentList :=
  mkList (Some 0) None false
    [mkFragment (TimeInterval.mk 0 2) "a"; mkFragment (TimeInterval.mk 1 3) "b"].

Definition list_1_2_3 : SyncMapFragmentList :=
  mkList (Some 0) (Some 5) true
    [mkFragment (TimeInterval.mk 1 2) "a"; mkFragment (TimeInterval.mk 2 3) "b"].

(** A computation of the list monad changes the intervals of the fragments
    at most, whatever the list it starts from and whether it returns or
    raises. *)
Definition keeps_frame {A} (m : M A) : Prop :=
  forall s r s', m s = (r, s') -> same_frame s s'.

(** No fragment of [l] has zero length. *)
Definition no_zero_length (l : list SyncMapFragment) : Prop :=
  Forall (fun f => TimeInterval.has_zero_length (interval f) = false) l.

(** The fragment [z] after the replay of an ENLARGE move: moved to end at
    [current_time], then enlarged by [amount]. *)
Definition repaired (current_time amount : TimeValue) (z : SyncMapFragment)
    : SyncMapFragment :=
  mkFragment
    (TimeInterval.enlarge amount
       (TimeInterval.move_end_at current_time (interval z)))
    (payload z).

(** The donor [d] after it gave [amount] of its length. *)
Definition shrunk (amount : TimeValue) (d : SyncMapFragment) : SyncMapFragment :=
  mkFragment (TimeInterval.shrink amount (interval d)) (payload d).

(** * Properties *)

(** ** Comparisons of time values *)

Module TVFacts.

Lemma eqb_spec x y : TV.eqb x y = true <-> x == y.
Proof. apply Qeq_bool_iff. Qed.

Lemma leb_spec x y : TV.leb x y = true <-> x <= y.
Proof. apply Qle_bool_iff. Qed.

Lemma ltb_spec x y : TV.ltb x y = true <-> x < y.
Proof.
  unfold TV.ltb. rewrite Qlt_alt.
  destruct (x ?= y); split; congruence.
Qed.

Lemma gtb_spec x y : TV.gtb x y = true <-> y < x.
Proof. apply ltb_spec. Qed.

Lemma eqb_false x y : TV.eqb x y = false <-> ~ x == y.
Proof.
  pose proof (eqb_spec x y) as H.
  destruct (TV.eqb x y); split; intros H'; try reflexivity.
  - discriminate.
  - exfalso. apply H'. apply H. reflexivity.
  - intros He. apply H in He. discriminate.
Qed.

Lemma ltb_false x y : TV.ltb x y = false <-> y <= x.
Proof.
  pose proof (ltb_spec x y) as H.
  destruct (TV.ltb x y); split; intros H'; try reflexivity.
  - discriminate.
  - exfalso. apply (Qlt_not_le x y); [apply H; reflexivity | exact H'].
  - apply Qnot_lt_le. intros Hlt. apply H in Hlt. discriminate.
Qed.

Lemma gtb_false x y : TV.gtb x y = false <-> x <= y.
Proof. apply ltb_false. Qed.

Lemma leb_false x y : TV.leb x y = false <-> y < x.
Proof.
  pose proof (leb_spec x y) as H.
  destruct (TV.leb x y); split; intros H'; try reflexivity.
  - discriminate.
  - exfalso. apply (Qlt_not_le y x); [exact H' | apply H; reflexivity].
  - apply Qnot_le_lt. intros Hle. apply H in Hle. discriminate.
Qed.

End TVFacts.

(** Turns the boolean comparisons of the context and of the goal into
    propositions on [Q], for [lra]. *)
Ltac tv_prop :=
  repeat match goal with
  | H : TV.eqb _ _ = true |- _ => apply TVFacts.eqb_spec in H
  | H : TV.eqb _ _ = false |- _ => apply TVFacts.eqb_false in H
  | H : TV.ltb _ _ = true |- _ => apply TVFacts.ltb_spec in H
  | H : TV.ltb _ _ = false |- _ => apply TVFacts.ltb_false in H
  | H : TV.gtb _ _ = true |- _ => apply TVFacts.gtb_spec in H
  | H : TV.gtb _ _ = false |- _ => apply TVFacts.gtb_false in H
  | H : TV.leb _ _ = true |- _ => apply TVFacts.leb_spec in H
  | H : TV.leb _ _ = false |- _ => apply TVFacts.leb_false in H
  | |- TV.eqb _ _ = true => apply TVFacts.eqb_spec
  | |- TV.eqb _ _ = false => apply TVFacts.eqb_false
  | |- TV.ltb _ _ = true => apply TVFacts.ltb_spec
  | |- TV.ltb _ _ = false => apply TVFacts.ltb_false
  | |- TV.gtb _ _ = true => apply TVFacts.gtb_spec
  | |- TV.gtb _ _ = false => apply TVFacts.gtb_false
  | |- TV.leb _ _ = true => apply TVFacts.leb_spec
  | |- TV.leb _ _ = false => apply TVFacts.leb_false
  end.

Ltac split_ifs :=
  repeat match goal with
  | |- context [if ?c then _ else _] => destruct c eqn:?
  end.

(** ** Construction *)

(** C6: for time values [b] and [e] with [0 <= b <= e] the construction
    returns the empty list flagged as sorted; with [b > e] or [b < 0] it
    raises a ValueError, also when the end is unset; it raises a TypeError
    when the begin or the end is an object that is neither [None] nor a time
    value. *)
Theorem init_validates (b e : TimeValue) (o : PyObject) (r : string) :
  (0 <= b -> b <= e ->
     __init__ (PyTimeValue b) (PyTimeValue e)
     = Return (mkList (Some b) (Some e) true []))
  /\ (e < b \/ b < 0 ->
     exists msg, __init__ (PyTimeValue b) (PyTimeValue e)
                 = Raise (ValueError msg))
  /\ (b < 0 ->
     __init__ (PyTimeValue b) PyNone = Raise (ValueError "begin is negative"))
  /\ (exists msg, __init__ (PyOther r) o = Raise (TypeError msg))
  /\ (exists msg, __init__ o (PyOther r) = Raise (TypeError msg)).
Proof.
  repeat split.
  - intros H0 Hle. unfold __init__.
    destruct (TV.ltb b 0) eqn:E1; tv_prop; [lra|].
    destruct (TV.gtb b e) eqn:E2; tv_prop; [lra|]. reflexivity.
  - intros H. unfold __init__.
    destruct (TV.ltb b 0) eqn:E1; [eauto|].
    destruct (TV.gtb b e) eqn:E2; [eauto|].
    tv_prop. lra.
  - intros H. unfold __init__.
    destruct (TV.ltb b 0) eqn:E1; [reflexivity|]. tv_prop. lra.
  - unfold __init__. eauto.
  - unfold __init__. destruct o; eauto.
Qed.

Lemma init_validates_witness :
  __init__ (PyTimeValue 0) (PyTimeValue 2)
  = Return (mkList (Some 0) (Some 2) true []).
Proof.
  apply (proj1 (init_validates 0 2 PyNone EmptyString)).
  - apply Qle_refl.
  - discriminate.
Defined.

(** ** Unchecked append *)

Lemma check_boundaries_within s f :
  within_boundaries s f -> _check_boundaries (Fragment f) s = (Return tt, s).
Proof.
  intros [Hb He]. unfold _check_boundaries, bind, get, ret, raise.
  destruct (begin s) as [b|] eqn:Eb.
  - destruct (TV.ltb (TimeInterval.begin (interval f)) b) eqn:E1.
    + tv_prop. specialize (Hb b eq_refl). lra.
    + destruct (end_ s) as [e|] eqn:Ee; [|reflexivity].
      destruct (TV.gtb (TimeInterval.end_ (interval f)) e) eqn:E2;
        [|reflexivity].
      tv_prop. specialize (He e eq_refl). lra.
  - destruct (end_ s) as [e|] eqn:Ee; [|reflexivity].
    destruct (TV.gtb (TimeInterval.end_ (interval f)) e) eqn:E2;
      [|reflexivity].
    tv_prop. specialize (He e eq_refl). lra.
Qed.

Lemma check_boundaries_state fragment s r s' :
  _check_boundaries fragment s = (r, s') -> s' = s.
Proof.
  unfold _check_boundaries, bind, get, ret, raise.
  destruct fragment as [? | ? | f]; try (intros H; injection H; congruence).
  destruct (match begin s with Some b => _ | None => false end);
    [intros H; injection H; congruence|].
  destruct (match end_ s with Some e => _ | None => false end);
    intros H; injection H; congruence.
Qed.

(** C7, as stated, fails: a fragment that ends after the end of the list is
    not appended by [add(f, sort=False)], a ValueError is raised. *)
Lemma add_unsorted_rejects_out_of_bounds :
  ~ (exists s', add (Fragment unbounded_fragment) false short_list
                = (Return tt, s')
                /\ __fragments s' = __fragments short_list ++ [unbounded_fragment])
  /\ add (Fragment unbounded_fragment) false short_list
     = (Raise (ValueError "interval.end is after self.end"), short_list).
Proof.
  split.
  - intros [s' [H _]]. vm_compute in H. discriminate.
  - vm_compute. reflexivity.
Qed.

(** C7, amended: for every list, sorted or not, and every fragment within
    the bounds of the list, [add(f, sort=False)] appends the fragment at the
    end and leaves the list flagged as not sorted, whatever the fragment
    overlaps. *)
Theorem add_unsorted_appends (s : SyncMapFragmentList) (f : SyncMapFragment) :
  within_boundaries s f ->
  add (Fragment f) false s
  = (Return tt, mkList (begin s) (end_ s) false (__fragments s ++ [f])).
Proof.
  intros H. unfold add, bind.
  rewrite (check_boundaries_within s f H). reflexivity.
Qed.

Lemma add_unsorted_appends_witness :
  within_boundaries (mkList (Some 0) (Some 4) true [mkFragment (TimeInterval.mk 0 2) "a"])
                    (mkFragment (TimeInterval.mk 1 3) "b")
  /\ add (Fragment (mkFragment (TimeInterval.mk 1 3) "b")) false
         (mkList (Some 0) (Some 4) true [mkFragment (TimeInterval.mk 0 2) "a"])
     = (Return tt,
        mkList (Some 0) (Some 4) false
          [mkFragment (TimeInterval.mk 0 2) "a";
           mkFragment (TimeInterval.mk 1 3) "b"]).
Proof.
  assert (H : within_boundaries
                (mkList (Some 0) (Some 4) true
                   [mkFragment (TimeInterval.mk 0 2) "a"])
                (mkFragment (TimeInterval.mk 1 3) "b")).
  { split; simpl; intros x Hx; injection Hx as <-; discriminate. }
  split; [exact H|].
  apply (add_unsorted_appends _ _ H).
Defined.

(** ** Offsetting with an argument that is not a time value *)

Lemma offset_empty_returns (o : PyObject) (b e : option TimeValue)
    (flag : bool) :
  offset o (mkList b e flag []) = (Return tt, mkList b e flag []).
Proof. reflexivity. Qed.

Lemma offset_not_time_value_nonempty (o : PyObject) (s : SyncMapFragmentList) :
  (forall d, o <> PyTimeValue d) ->
  __fragments s <> [] ->
  offset o s
  = (Raise (TypeError "offset is not an instance of TimeValue"), s).
Proof.
  intros Ho Hne. unfold offset, bind, get.
  destruct s as [b e flag l]. simpl in *.
  destruct l as [|f l]; [congruence|]. simpl.
  unfold bind, get, __getitem__, index_position. simpl.
  unfold bind, get, ret, raise. simpl.
  destruct (Pos.of_succ_nat (List.length l)); simpl;
  destruct o; try reflexivity; exfalso; eapply Ho; reflexivity.
Qed.

(** C8 fails on the empty list: with an argument that is not a time value,
    [offset] raises the TypeError from the first fragment it visits, and
    returns without any error when the list has no fragment. *)
Theorem offset_type_check (o : PyObject) (s : SyncMapFragmentList) :
  (forall d, o <> PyTimeValue d) ->
  (__fragments s = [] -> offset o s = (Return tt, s))
  /\ (__fragments s <> [] ->
      offset o s
      = (Raise (TypeError "offset is not an instance of TimeValue"), s)).
Proof.
  intros Ho. split.
  - intros Hnil. destruct s as [b e flag l]. simpl in Hnil. subst l.
    apply offset_empty_returns.
  - intros Hne. apply offset_not_time_value_nonempty; assumption.
Qed.

Lemma offset_type_check_witness :
  offset (PyOther "1.000") (mkList (Some 0) None true [])
  = (Return tt, mkList (Some 0) None true []).
Proof.
  apply (offset_type_check (PyOther "1.000") (mkList (Some 0) None true [])).
  - discriminate.
  - reflexivity.
Defined.

(** ** Sorting twice *)

Lemma sort_returns_sorted s s1 :
  sort s = (Return tt, s1) -> __sorted s1 = true.
Proof.
  unfold sort, is_guaranteed_sorted, bind, get, ret, set_fragments,
    set_sorted, put. simpl.
  destruct (__sorted s) eqn:E; simpl.
  - intros H. injection H as <-. exact E.
  - destruct (check_adjacent_loop _ _) as [[[]|?] s2]; intros H.
    + injection H as <-. reflexivity.
    + discriminate.
Qed.

Lemma sort_sorted_noop s : __sorted s = true -> sort s = (Return tt, s).
Proof.
  intros E. unfold sort, is_guaranteed_sorted, bind, get, ret.
  rewrite E. reflexivity.
Qed.

(** C9: when a first [sort()] returns, the list is flagged as sorted, a
    second [sort()] returns too and leaves the same fragments in the same
    order, and the list is flagged as sorted after it as well. *)
Theorem sort_idempotent (s s1 : SyncMapFragmentList) :
  sort s = (Return tt, s1) ->
  is_guaranteed_sorted s1 = (Return true, s1)
  /\ sort s1 = (Return tt, s1)
  /\ (forall s2, sort s1 = (Return tt, s2) ->
        __fragments s2 = __fragments s1
        /\ is_guaranteed_sorted s2 = (Return true, s2)).
Proof.
  intros H. apply sort_returns_sorted in H.
  assert (Hn := sort_sorted_noop s1 H).
  repeat split.
  - unfold is_guaranteed_sorted, bind, get, ret. rewrite H. reflexivity.
  - exact Hn.
  - rewrite Hn in H0. injection H0 as <-. reflexivity.
  - rewrite Hn in H0. injection H0 as <-.
    unfold is_guaranteed_sorted, bind, get, ret. rewrite H. reflexivity.
Qed.

Lemma sort_idempotent_witness :
  sort two_appended = (Return tt, two_sorted)
  /\ sort two_sorted = (Return tt, two_sorted).
Proof.
  assert (H : sort two_appended = (Return tt, two_sorted))
    by (vm_compute; reflexivity).
  split; [exact H|].
  exact (proj1 (proj2 (sort_idempotent two_appended two_sorted H))).
Defined.

(** ** Falsy index arguments of the repair *)

(** C10: an explicit [max_index = 0] is replaced by the length of the list
    as [None] is, and an explicit [min_index = 0] is the default; the call
    with [max_index = 0] scans the whole list and mutates
    [[0,0), [0,2)]]. *)
Theorem fix_zero_length_intervals_falsy_indices :
  (forall offset min_index s,
      fix_zero_length_intervals offset min_index (Some 0%Z) s
      = fix_zero_length_intervals offset min_index
          (Some (Z.of_nat (List.length (__fragments s)))) s
      /\ fix_zero_length_intervals offset min_index (Some 0%Z) s
         = fix_zero_length_intervals offset min_index None s)
  /\ (forall offset max_index s,
      fix_zero_length_intervals offset (Some 0%Z) max_index s
      = fix_zero_length_intervals offset None max_index s)
  /\ (exists s s',
      __fragments s <> []
      /\ fix_zero_length_intervals (1 # 1000) None (Some 0%Z) s
         = (Return tt, s')
      /\ __fragments s' <> __fragments s).
Proof.
  split; [|split].
  - intros offset min_index s.
    unfold fix_zero_length_intervals, __len__, bind, get, ret. simpl.
    split; [|reflexivity].
    destruct (__fragments s) as [|f l]; [reflexivity|].
    simpl List.length. simpl or_default at 2 4. reflexivity.
  - intros. reflexivity.
  - exists (mkList (Some 0) (Some 2) true
              [mkFragment (TimeInterval.mk 0 0) "a";
               mkFragment (TimeInterval.mk 0 2) "b"]).
    eexists. split; [discriminate|]. split.
    + vm_compute. reflexivity.
    + discriminate.
Qed.

(** ** The allowed positions *)

Lemma allowed_pair_touching (a b : TimeInterval.t) :
  TimeInterval.wf a -> TimeInterval.wf b ->
  (allowed_pair a b = true
   <-> TimeInterval.end_ a <= TimeInterval.begin b
       \/ TimeInterval.end_ b <= TimeInterval.begin a).
Proof.
  unfold TimeInterval.wf, allowed_pair, TimeInterval.relative_position_of,
    TimeInterval.has_zero_length, TimeInterval.length.
  destruct a as [a1 a2], b as [b1 b2]. simpl. intros Ha Hb.
  split_ifs; tv_prop; simpl; split; intros H;
    try reflexivity; try discriminate; try lra;
    try (exfalso; lra); try (destruct H; exfalso; lra).
Qed.

Lemma allowed_pair_sym (a b : TimeInterval.t) :
  allowed_pair a b = allowed_pair b a.
Proof.
  unfold allowed_pair, TimeInterval.relative_position_of,
    TimeInterval.has_zero_length, TimeInterval.length.
  destruct a as [a1 a2], b as [b1 b2]. simpl.
  split_ifs; try reflexivity; tv_prop; exfalso; lra.
Qed.

(** ** Sorted insertion and overlaps *)

Lemma check_overlap_loop_eq l f s :
  check_overlap_loop l f s
  = if overlaps_any l f
    then (Raise (ValueError "interval overlaps another already present interval"), s)
    else (Return tt, s).
Proof.
  induction l as [|g l IH]; simpl; [reflexivity|].
  fold (allowed_pair (interval g) (interval f)).
  destruct (allowed_pair (interval g) (interval f)); simpl.
  - exact IH.
  - reflexivity.
Qed.

Lemma add_sorted_eq s f :
  __sorted s = true -> within_boundaries s f ->
  add (Fragment f) true s
  = if overlaps_any (__fragments s) f
    then (Raise (ValueError "interval overlaps another already present interval"), s)
    else (Return tt,
          mkList (begin s) (end_ s) true (insort (__fragments s) f)).
Proof.
  intros Hs Hb. unfold add, bind.
  rewrite (check_boundaries_within s f Hb).
  unfold is_guaranteed_sorted, bind, get, ret, _check_overlap. rewrite Hs.
  simpl. unfold bind, get. rewrite check_overlap_loop_eq.
  destruct (overlaps_any (__fragments s) f); [reflexivity|].
  unfold set_fragments, bind, get, put. rewrite Hs. reflexivity.
Qed.

Lemma positive_intersection_forbidden a b :
  TimeInterval.wf a -> TimeInterval.wf b ->
  positive_intersection a b -> allowed_pair a b = false.
Proof.
  intros Ha Hb Hp. destruct (allowed_pair a b) eqn:E; [|reflexivity].
  apply (allowed_pair_touching a b Ha Hb) in E.
  unfold positive_intersection in Hp.
  pose proof (Q.le_max_l (TimeInterval.begin a) (TimeInterval.begin b)).
  pose proof (Q.le_max_r (TimeInterval.begin a) (TimeInterval.begin b)).
  pose proof (Q.le_min_l (TimeInterval.end_ a) (TimeInterval.end_ b)).
  pose proof (Q.le_min_r (TimeInterval.end_ a) (TimeInterval.end_ b)).
  destruct E; lra.
Qed.

(** C2: on a list flagged as sorted, for a fragment within the bounds and
    well-formed intervals, [add(f, sort=True)] raises the ValueError of
    [_check_overlap] when the interval of [f] has an intersection of
    positive length with the interval of a fragment of the list, and
    inserts [f] when it is disjoint from every one of them but for a shared
    boundary point. *)
Theorem add_sorted_overlap (s : SyncMapFragmentList) (f : SyncMapFragment) :
  __sorted s = true ->
  within_boundaries s f ->
  TimeInterval.wf (interval f) ->
  Forall (fun g => TimeInterval.wf (interval g)) (__fragments s) ->
  (Exists (fun g => positive_intersection (interval g) (interval f))
          (__fragments s) ->
   add (Fragment f) true s
   = (Raise (ValueError "interval overlaps another already present interval"),
      s))
  /\ (Forall (fun g => touching_only (interval g) (interval f))
             (__fragments s) ->
      add (Fragment f) true s
      = (Return tt,
         mkList (begin s) (end_ s) true (insort (__fragments s) f))).
Proof.
  intros Hs Hb Hf Hwf. rewrite (add_sorted_eq s f Hs Hb). split.
  - intros Hex.
    assert (E : overlaps_any (__fragments s) f = true).
    { unfold overlaps_any. apply existsb_exists.
      apply Exists_exists in Hex. destruct Hex as [g [Hin Hp]].
      exists g. split; [exact Hin|].
      rewrite Forall_forall in Hwf.
      rewrite (positive_intersection_forbidden _ _ (Hwf g Hin) Hf Hp).
      reflexivity. }
    rewrite E. reflexivity.
  - intros Hall.
    assert (E : overlaps_any (__fragments s) f = false).
    { unfold overlaps_any.
      destruct (existsb _ _) eqn:Ex; [|reflexivity].
      apply existsb_exists in Ex. destruct Ex as [g [Hin Hg]].
      rewrite Forall_forall in Hwf, Hall.
      rewrite (proj2 (allowed_pair_touching _ _ (Hwf g Hin) Hf) (Hall g Hin))
        in Hg. discriminate. }
    rewrite E. reflexivity.
Qed.

Lemma add_sorted_overlap_witness :
  add (Fragment (mkFragment (TimeInterval.mk 2 4) "b")) true list_0_2
  = (Return tt,
     mkList (Some 0) None true
       [mkFragment (TimeInterval.mk 0 2) "a";
        mkFragment (TimeInterval.mk 2 4) "b"])
  /\ add (Fragment (mkFragment (TimeInterval.mk 1 3) "b")) true list_0_2
     = (Raise (ValueError "interval overlaps another already present interval"),
        list_0_2).
Proof.
  split.
  - apply (add_sorted_overlap list_0_2 (mkFragment (TimeInterval.mk 2 4) "b")).
    + reflexivity.
    + split; simpl; intros x Hx; [injection Hx as <-|]; discriminate.
    + discriminate.
    + constructor; [discriminate | constructor].
    + constructor; [left; simpl; discriminate | constructor].
  - apply (add_sorted_overlap list_0_2 (mkFragment (TimeInterval.mk 1 3) "b")).
    + reflexivity.
    + split; simpl; intros x Hx; [injection Hx as <-|]; discriminate.
    + discriminate.
    + constructor; [discriminate | constructor].
    + constructor. reflexivity.
Defined.

(** ** The order of the fragments *)

Lemma fragment_ltb_true f g :
  fragment_ltb f g = true
  <-> TimeInterval.begin (interval f) < TimeInterval.begin (interval g)
      \/ (TimeInterval.begin (interval f) == TimeInterval.begin (interval g)
          /\ TimeInterval.end_ (interval f) < TimeInterval.end_ (interval g)).
Proof.
  unfold fragment_ltb, TimeInterval.ltb.
  rewrite orb_true_iff, andb_true_iff.
  rewrite TVFacts.ltb_spec, TVFacts.eqb_spec, TVFacts.ltb_spec. reflexivity.
Qed.

Lemma fragment_ltb_false f g :
  fragment_ltb f g = false
  <-> TimeInterval.begin (interval g) < TimeInterval.begin (interval f)
      \/ (TimeInterval.begin (interval f) == TimeInterval.begin (interval g)
          /\ TimeInterval.end_ (interval g) <= TimeInterval.end_ (interval f)).
Proof.
  unfold fragment_ltb, TimeInterval.ltb.
  rewrite orb_false_iff, andb_false_iff.
  rewrite TVFacts.ltb_false, TVFacts.eqb_false, TVFacts.ltb_false.
  split; intros H.
  - destruct H as [H1 [H2|H2]].
    + destruct (Qeq_dec (TimeInterval.begin (interval f))
                        (TimeInterval.begin (interval g))); [tauto|].
      left. apply Qle_lteq in H1. destruct H1 as [H1|H1]; [exact H1|].
      exfalso. apply n. symmetry. exact H1.
    + destruct (Qeq_dec (TimeInterval.begin (interval f))
                        (TimeInterval.begin (interval g))); [tauto|].
      left. apply Qle_lteq in H1. destruct H1 as [H1|H1]; [exact H1|].
      exfalso. apply n. symmetry. exact H1.
  - destruct H as [H|[H1 H2]].
    + split; [lra|]. left. lra.
    + split; [lra|]. right. exact H2.
Qed.

#[local] Instance fragment_le_trans : Transitive fragment_le.
Proof.
  intros f g h. unfold fragment_le.
  rewrite !fragment_ltb_false. intros [H1|[H1 H1']] [H2|[H2 H2']].
  - left. lra.
  - left. lra.
  - left. lra.
  - right. split; lra.
Qed.

Lemma fragment_lt_le_trans f g h :
  fragment_ltb f g = true -> fragment_le g h -> fragment_ltb f h = true.
Proof.
  unfold fragment_le. rewrite !fragment_ltb_true, fragment_ltb_false.
  intros [H1|[H1 H1']] [H2|[H2 H2']].
  - left. lra.
  - left. lra.
  - left. lra.
  - right. split; lra.
Qed.

Lemma strongly_sorted_nth (l : list SyncMapFragment) d :
  StronglySorted fragment_le l ->
  forall i j, (i <= j)%nat -> (j < List.length l)%nat ->
  i = j \/ fragment_le (nth i l d) (nth j l d).
Proof.
  induction 1 as [|a l Hs IH Hall]; intros i j Hij Hj; simpl in *; [lia|].
  destruct i as [|i], j as [|j]; try lia.
  - right. rewrite Forall_forall in Hall. apply Hall. apply nth_In. lia.
  - destruct (IH i j) as [->|H']; [lia|lia| |]; [left; reflexivity|].
    right. exact H'.
Qed.

(** *** The binary search *)

Section Bisect.

Variable a : list SyncMapFragment.
Variable x : SyncMapFragment.
Hypothesis a_sorted : StronglySorted fragment_le a.

Lemma bisect_loop_bisected n :
  forall lo hi, (hi - lo <= n)%nat -> bisected a x lo hi ->
  bisected a x (bisect_loop n a x lo hi) (bisect_loop n a x lo hi).
Proof.
  induction n as [|n IH]; intros lo hi Hn [Hb [Hlo Hhi]]; simpl.
  - assert (lo = hi) by lia. subst hi. repeat split; auto; lia.
  - destruct (lo <? hi)%nat eqn:E.
    + apply Nat.ltb_lt in E.
      assert (Hmid : (lo <= Nat.div2 (lo + hi) < hi)%nat).
      { rewrite Nat.div2_div.
        pose proof (Nat.div_mod_eq (lo + hi) 2) as Hd.
        pose proof (Nat.mod_upper_bound (lo + hi) 2). lia. }
      set (mid := Nat.div2 (lo + hi)) in *.
      destruct (fragment_ltb x (nth mid a x)) eqn:Ex.
      * apply IH; [lia|]. repeat split; try lia; auto.
        intros k Hk.
        destruct (strongly_sorted_nth a x a_sorted mid k) as [->|Hle];
          [lia|lia|exact Ex|].
        exact (fragment_lt_le_trans _ _ _ Ex Hle).
      * apply IH; [lia|]. repeat split; try lia; auto.
        intros k Hk.
        destruct (strongly_sorted_nth a x a_sorted k mid) as [->|Hle];
          [lia|lia|exact Ex|].
        exact (fragment_le_trans _ _ _ Hle Ex).
    + apply Nat.ltb_ge in E. assert (lo = hi) by lia. subst hi.
      repeat split; auto; lia.
Qed.

Lemma bisect_right_bisected :
  bisected a x (bisect_right a x) (bisect_right a x).
Proof.
  apply bisect_loop_bisected; [lia|].
  repeat split; intros; lia.
Qed.

End Bisect.

(** *** Insertion in the middle of a list *)

Lemma Sorted_insert_middle {A} (R : A -> A -> Prop) (l1 l2 : list A) (x : A) :
  Sorted R (l1 ++ l2) ->
  Forall (fun y => R y x) l1 -> Forall (R x) l2 ->
  Sorted R (l1 ++ x :: l2).
Proof.
  induction l1 as [|y l1 IH]; simpl; intros Hs H1 H2.
  - constructor; [exact Hs|].
    destruct l2; constructor. inversion H2; assumption.
  - inversion Hs as [|? ? Hs' Hhd]; subst.
    inversion H1 as [|? ? Hy H1']; subst.
    constructor; [apply IH; assumption|].
    destruct l1; simpl in *.
    + constructor. exact Hy.
    + inversion Hhd; subst. constructor. assumption.
Qed.

Lemma fragment_ltb_asym f g :
  fragment_ltb f g = true -> fragment_ltb g f = false.
Proof.
  rewrite fragment_ltb_true, fragment_ltb_false.
  intros [H|[H1 H2]]; [left; exact H|].
  right. split; [symmetry; exact H1|lra].
Qed.

Lemma insort_split a x :
  insort a x
  = firstn (bisect_right a x) a ++ x :: skipn (bisect_right a x) a.
Proof. reflexivity. Qed.

Lemma insort_ascending a x : ascending a -> ascending (insort a x).
Proof.
  intros Ha. rewrite insort_split.
  assert (Hs : StronglySorted fragment_le a)
    by (apply Sorted_StronglySorted; [exact fragment_le_trans | exact Ha]).
  destruct (bisect_right_bisected a x Hs) as [Hr [Hlo Hhi]].
  set (r := bisect_right a x) in *.
  apply Sorted_insert_middle.
  - rewrite firstn_skipn. exact Ha.
  - apply Forall_forall. intros y Hy.
    destruct (In_nth _ _ x Hy) as [k [Hk <-]].
    rewrite length_firstn in Hk. rewrite nth_firstn.
    assert (E : (k <? r)%nat = true) by (apply Nat.ltb_lt; lia).
    rewrite E. apply Hlo. lia.
  - apply Forall_forall. intros y Hy.
    destruct (In_nth _ _ x Hy) as [k [Hk <-]].
    rewrite length_skipn in Hk. rewrite nth_skipn.
    apply fragment_ltb_asym. apply Hhi. lia.
Qed.

Lemma overlaps_any_false l f :
  overlaps_any l f = false ->
  forall g, In g l -> allowed_pair (interval g) (interval f) = true.
Proof.
  unfold overlaps_any. intros H g Hg.
  destruct (allowed_pair (interval g) (interval f)) eqn:E; [reflexivity|].
  assert (Hex : existsb (fun g => negb (allowed_pair (interval g) (interval f))) l
                = true).
  { apply existsb_exists. exists g. rewrite E. auto. }
  congruence.
Qed.

Lemma insert_adjacent_allowed l1 l2 f :
  adjacent_allowed (l1 ++ l2) ->
  overlaps_any (l1 ++ l2) f = false ->
  adjacent_allowed (l1 ++ f :: l2).
Proof.
  intros Ha Ho. pose proof (overlaps_any_false _ _ Ho) as Hall.
  apply Sorted_insert_middle.
  - exact Ha.
  - apply Forall_forall. intros g Hg. apply Hall.
    apply in_or_app. left. exact Hg.
  - apply Forall_forall. intros g Hg. rewrite allowed_pair_sym.
    apply Hall. apply in_or_app. right. exact Hg.
Qed.

Lemma insort_adjacent_allowed a f :
  adjacent_allowed a -> overlaps_any a f = false ->
  adjacent_allowed (insort a f).
Proof.
  intros Ha Ho. rewrite insort_split.
  apply insert_adjacent_allowed; rewrite firstn_skipn; assumption.
Qed.

(** What a successful sorted insertion has done. *)
Lemma add_sorted_returns s f s' :
  add (Fragment f) true s = (Return tt, s') ->
  __sorted s = true
  /\ overlaps_any (__fragments s) f = false
  /\ s' = mkList (begin s) (end_ s) true (insort (__fragments s) f).
Proof.
  unfold add, bind.
  destruct (_check_boundaries (Fragment f) s) as [[[]|e] s1] eqn:Ec;
    [|discriminate].
  apply check_boundaries_state in Ec. subst s1.
  unfold is_guaranteed_sorted, bind, get, ret, raise, _check_overlap.
  destruct (__sorted s) eqn:Es; simpl; [|discriminate].
  unfold bind, get. rewrite check_overlap_loop_eq.
  destruct (overlaps_any (__fragments s) f); [discriminate|].
  unfold set_fragments, bind, get, put. rewrite Es.
  intros H. injection H as <-. auto.
Qed.

(** C1, as stated, fails: a list flagged as sorted need not be in order.
    After [__setitem__] has replaced a fragment the flag is still set, a
    sorted insertion succeeds and the fragments are not ascending. *)
Lemma add_sorted_after_setitem_not_ascending :
  (exists s0 s1 s2,
     __init__ (PyTimeValue 0) PyNone = Return s0
     /\ add (Fragment fragment_5_6) true s0 = (Return tt, s1)
     /\ add (Fragment fragment_7_8) true s1 = (Return tt, s2)
     /\ __setitem__ 1 fragment_1_2 s2 = (Return tt, reassigned_list))
  /\ __sorted reassigned_list = true
  /\ exists s',
       add (Fragment fragment_8_9) true reassigned_list = (Return tt, s')
       /\ ~ ascending (__fragments s').
Proof.
  split; [|split].
  - do 3 eexists. repeat split; vm_compute; reflexivity.
  - reflexivity.
  - eexists. split; [vm_compute; reflexivity|].
    simpl. intros H. inversion H as [|? ? _ Hhd]; subst.
    inversion Hhd as [|? ? Hle]; subst. vm_compute in Hle. discriminate.
Qed.

(** C1, amended: when the fragments are in ascending order with every
    adjacent pair in an allowed position, and [add(f, sort=True)] returns,
    the list is flagged as sorted, its fragments are in ascending order and
    every adjacent pair is in an allowed position. *)
Theorem add_sorted_preserves_invariant
    (s s' : SyncMapFragmentList) (f : SyncMapFragment) :
  ascending (__fragments s) ->
  adjacent_allowed (__fragments s) ->
  add (Fragment f) true s = (Return tt, s') ->
  __sorted s' = true
  /\ ascending (__fragments s')
  /\ adjacent_allowed (__fragments s').
Proof.
  intros Ha Hp Hadd.
  destruct (add_sorted_returns s f s' Hadd) as [Hs [Ho ->]]. simpl.
  split; [reflexivity|]. split.
  - apply insort_ascending. exact Ha.
  - apply insort_adjacent_allowed; assumption.
Qed.

Lemma add_sorted_preserves_invariant_witness :
  true = true
  /\ ascending [fragment_5_6; fragment_7_8; fragment_8_9]
  /\ adjacent_allowed [fragment_5_6; fragment_7_8; fragment_8_9].
Proof.
  apply (add_sorted_preserves_invariant
           (mkList (Some 0) None true [fragment_5_6; fragment_8_9])
           (mkList (Some 0) None true [fragment_5_6; fragment_7_8; fragment_8_9])
           fragment_7_8).
  - repeat constructor.
  - repeat constructor.
  - vm_compute. reflexivity.
Defined.

(** ** Indexing *)

Lemma index_position_valid (len index : Z) :
  (0 <= index < len)%Z -> index_position len index = Some (Z.to_nat index).
Proof.
  intros H. unfold index_position.
  destruct (index <? 0)%Z eqn:E; [apply Z.ltb_lt in E; lia|].
  destruct (0 <=? index)%Z eqn:E1; [|apply Z.leb_gt in E1; lia].
  destruct (index <? len)%Z eqn:E2; [|apply Z.ltb_ge in E2; lia].
  reflexivity.
Qed.

Lemma getitem_valid s index d :
  (0 <= index < Z.of_nat (List.length (__fragments s)))%Z ->
  __getitem__ index s = (Return (nth (Z.to_nat index) (__fragments s) d), s).
Proof.
  intros H. unfold __getitem__, bind, get.
  rewrite (index_position_valid _ _ H).
  rewrite (nth_error_nth' _ d) by lia. reflexivity.
Qed.

Lemma setitem_valid s index value :
  (0 <= index < Z.of_nat (List.length (__fragments s)))%Z ->
  __setitem__ index value s
  = (Return tt,
     mkList (begin s) (end_ s) (__sorted s)
       (list_set (__fragments s) (Z.to_nat index) value)).
Proof.
  intros H. unfold __setitem__, bind, get.
  rewrite (index_position_valid _ _ H). reflexivity.
Qed.

Lemma length_list_set {A} (l : list A) k a :
  List.length (list_set l k a) = List.length l.
Proof.
  revert k. induction l as [|x l IH]; intros [|k]; simpl; auto.
Qed.

Lemma nth_list_set_eq {A} (l : list A) k a d :
  (k < List.length l)%nat -> nth k (list_set l k a) d = a.
Proof.
  revert k. induction l as [|x l IH]; intros [|k] H; simpl in *;
    try lia; auto. apply IH. lia.
Qed.

Lemma nth_list_set_neq {A} (l : list A) k j a d :
  k <> j -> nth j (list_set l k a) d = nth j l d.
Proof.
  revert k j. induction l as [|x l IH]; intros [|k] [|j] H; simpl;
    try congruence; auto.
Qed.

Lemma update_interval_valid s index g d :
  (0 <= index < Z.of_nat (List.length (__fragments s)))%Z ->
  update_interval index g s
  = (Return tt,
     mkList (begin s) (end_ s) (__sorted s)
       (list_set (__fragments s) (Z.to_nat index)
          (mkFragment (g (interval (nth (Z.to_nat index) (__fragments s) d)))
                      (payload (nth (Z.to_nat index) (__fragments s) d))))).
Proof.
  intros H. unfold update_interval, bind.
  rewrite (getitem_valid s index d H).
  rewrite (setitem_valid s index _ H). reflexivity.
Qed.

(** ** Moving a shared boundary *)

(** [move_end] on a list with both bounds set: no exception, and the
    boundary is moved exactly when every precondition is met. *)
Lemma move_end_bounded s b e index value d :
  begin s = Some b -> end_ s = Some e ->
  move_end index value s
  = (Return tt,
     if move_end_applies s b e index value d
     then boundary_moved s (Z.to_nat index) value d
     else s).
Proof.
  intros Hb He. unfold move_end, move_end_applies, bind, get.
  rewrite Hb, He. unfold lt_bound, gt_bound, ret, __len__, bind, get.
  destruct (TV.ltb value b); simpl; [reflexivity|].
  destruct (TV.gtb value e); simpl; [reflexivity|].
  destruct (index <? 0)%Z eqn:E0; simpl.
  { apply Z.ltb_lt in E0.
    destruct (0 <=? index)%Z eqn:E; [apply Z.leb_le in E; lia|]. reflexivity. }
  apply Z.ltb_ge in E0.
  destruct (0 <=? index)%Z eqn:E; [|apply Z.leb_gt in E; lia]. clear E.
  destruct (index + 1 >=? Z.of_nat (List.length (__fragments s)))%Z eqn:E1.
  { rewrite Z.geb_le in E1.
    destruct (index + 1 <? _)%Z eqn:E; [apply Z.ltb_lt in E; lia|]. reflexivity. }
  assert (Hlt : (index + 1 < Z.of_nat (List.length (__fragments s)))%Z).
  { destruct (Z.lt_ge_cases (index + 1) (Z.of_nat (List.length (__fragments s))))
      as [H|H]; [exact H|].
    apply Z.geb_le in H. congruence. }
  destruct (index + 1 <? _)%Z eqn:E; [|apply Z.ltb_ge in E; lia]. clear E.
  simpl.
  rewrite (getitem_valid s index d) by lia.
  rewrite (getitem_valid s (index + 1) d) by lia.
  destruct (TV.gtb value _); simpl; [reflexivity|].
  destruct (TimeInterval.is_adjacent_before _ _); simpl; [|reflexivity].
  rewrite (update_interval_valid s index _ d) by lia.
  rewrite (update_interval_valid _ (index + 1) _ d)
    by (simpl; rewrite length_list_set; lia).
  simpl. unfold boundary_moved.
  replace (Z.to_nat (index + 1)) with (S (Z.to_nat index)) by lia.
  rewrite nth_list_set_neq by lia. reflexivity.
Qed.

(** C5 fails on a list whose end is unset, as the constructor leaves it by
    default: [move_end] on two adjacent fragments, with a value that meets
    every precondition, raises a TypeError instead of moving the boundary;
    with the end set to 2 the same call moves it. *)
Theorem move_end_unset_end_raises :
  (exists s0 s1,
     __init__ (PyTimeValue 0) PyNone = Return s0
     /\ add (Fragment (mkFragment (TimeInterval.mk 0 1) "a")) true s0
        = (Return tt, s1)
     /\ add (Fragment (mkFragment (TimeInterval.mk 1 2) "b")) true s1
        = (Return tt, open_ended_list))
  /\ move_end 0 (3 # 2) open_ended_list
     = (Raise (TypeError "'>' not supported between 'TimeValue' and 'NoneType'"),
        open_ended_list)
  /\ move_end 0 (3 # 2)
       (mkList (Some 0) (Some 2) true (__fragments open_ended_list))
     = (Return tt,
        mkList (Some 0) (Some 2) true
          [mkFragment (TimeInterval.mk 0 (3 # 2)) "a";
           mkFragment (TimeInterval.mk (3 # 2) 2) "b"]).
Proof.
  split; [|split].
  - do 2 eexists. repeat split; vm_compute; reflexivity.
  - vm_compute. reflexivity.
  - vm_compute. reflexivity.
Qed.

(** ** Failed calls *)

Lemma move_end_raise_state index value s e s' :
  move_end index value s = (Raise e, s') -> s' = s.
Proof.
  destruct (begin s) as [b|] eqn:Hb.
  - destruct (end_ s) as [e'|] eqn:He.
    + rewrite (move_end_bounded s b e' index value
                 (mkFragment (TimeInterval.mk 0 0) EmptyString) Hb He).
      discriminate.
    + unfold move_end, bind, get. rewrite Hb, He.
      unfold lt_bound, gt_bound, ret, raise.
      destruct (TV.ltb value b); [discriminate|].
      intros H. injection H; auto.
  - unfold move_end, bind, get. rewrite Hb.
    unfold lt_bound, raise. intros H. injection H; auto.
Qed.

Lemma add_raise_state fragment flag s e s' :
  add fragment flag s = (Raise e, s') -> s' = s.
Proof.
  unfold add, bind.
  destruct (_check_boundaries fragment s) as [[[]|e0] s1] eqn:Ec;
    apply check_boundaries_state in Ec; subst s1.
  - destruct fragment as [?|?|f]; try discriminate.
    destruct flag.
    + unfold is_guaranteed_sorted, bind, get, ret, raise, _check_overlap.
      destruct (__sorted s) eqn:Es; simpl.
      * unfold bind, get. rewrite check_overlap_loop_eq.
        destruct (overlaps_any (__fragments s) f).
        -- intros H. injection H; auto.
        -- unfold set_fragments, bind, get, put. discriminate.
      * intros H. injection H; auto.
    + unfold set_fragments, set_sorted, bind, get, put. discriminate.
  - intros H. injection H; auto.
Qed.

Lemma check_adjacent_loop_state l s r s' :
  check_adjacent_loop l s = (r, s') -> s' = s.
Proof.
  induction l as [|f [|g l] IH]; simpl.
  - unfold ret. intros H. injection H; auto.
  - unfold ret. intros H. injection H; auto.
  - destruct (negb _).
    + unfold raise. intros H. injection H; auto.
    + exact IH.
Qed.

Lemma sort_raise_state s e s' :
  sort s = (Raise e, s') ->
  __sorted s = false
  /\ s' = mkList (begin s) (end_ s) false (sorted (__fragments s)).
Proof.
  unfold sort, is_guaranteed_sorted, bind, get, ret, set_fragments,
    set_sorted, put. simpl.
  destruct (__sorted s) eqn:Es; simpl; [discriminate|].
  destruct (check_adjacent_loop _ _) as [[[]|e0] s1] eqn:Ec;
    [discriminate|].
  apply check_adjacent_loop_state in Ec. subst s1.
  intros H. injection H as _ <-. rewrite Es. auto.
Qed.

Lemma insert_after_le_permutation x l :
  Permutation (x :: l) (insert_after_le x l).
Proof.
  induction l as [|y l IH]; simpl; [reflexivity|].
  destruct (fragment_ltb x y); [reflexivity|].
  rewrite perm_swap. apply perm_skip. exact IH.
Qed.

Lemma sorted_permutation l : Permutation l (sorted l).
Proof.
  unfold sorted.
  assert (H : forall acc, Permutation (acc ++ l)
                (fold_left (fun acc x => insert_after_le x acc) l acc)).
  { induction l as [|x l IH]; intros acc; simpl.
    - rewrite app_nil_r. reflexivity.
    - rewrite <- IH. rewrite <- insert_after_le_permutation.
      symmetry. apply Permutation_middle. }
  exact (H []).
Qed.

Lemma offset_loop_time_value n d :
  forall k s e s',
  offset_loop n k (PyTimeValue d) s = (Raise e, s') ->
  exists msg, e = IndexError msg.
Proof.
  induction n as [|n IH]; intros k s e s'; simpl.
  - unfold ret. discriminate.
  - unfold bind, get, __getitem__, __setitem__, bind, get, raise, ret,
      set_fragments, bind, get, put.
    destruct (index_position _ k) as [p|].
    + destruct (nth_error (__fragments s) p) as [f|].
      * simpl. destruct (index_position _ k).
        -- apply IH.
        -- intros H. injection H as <- _. eauto.
      * intros H. injection H as <- _. eauto.
    + intros H. injection H as <- _. eauto.
Qed.

Lemma offset_type_error_state o s msg s' :
  offset o s = (Raise (TypeError msg), s') -> s' = s.
Proof.
  destruct o as [|d|r].
  - destruct (__fragments s) as [|f l] eqn:El.
    + unfold offset, bind, get. rewrite El. simpl. discriminate.
    + rewrite (offset_not_time_value_nonempty PyNone s);
        [|discriminate|congruence].
      intros H. injection H; auto.
  - unfold offset, bind, get. intros H.
    apply offset_loop_time_value in H. destruct H. discriminate.
  - destruct (__fragments s) as [|f l] eqn:El.
    + unfold offset, bind, get. rewrite El. simpl. discriminate.
    + rewrite (offset_not_time_value_nonempty (PyOther r) s);
        [|discriminate|congruence].
      intros H. injection H; auto.
Qed.

(** C3, as stated, fails: [sort()] on two overlapping fragments appended
    without check raises, and leaves the fragments in sorted order, not as
    they were. *)
Lemma sort_raise_reorders :
  (exists s0 s1,
     __init__ (PyTimeValue 0) PyNone = Return s0
     /\ add (Fragment (mkFragment (TimeInterval.mk 1 3) "a")) false s0
        = (Return tt, s1)
     /\ add (Fragment (mkFragment (TimeInterval.mk 0 2) "b")) false s1
        = (Return tt, overlapping_appended))
  /\ exists s',
       sort overlapping_appended
       = (Raise (ValueError
            "The list contains two time intervals overlapping in a forbidden way"),
          s')
       /\ __fragments s'
          = [mkFragment (TimeInterval.mk 0 2) "b";
             mkFragment (TimeInterval.mk 1 3) "a"]
       /\ __fragments s' <> __fragments overlapping_appended.
Proof.
  split.
  - do 2 eexists. repeat split; vm_compute; reflexivity.
  - eexists. split; [vm_compute; reflexivity|]. split; [reflexivity|].
    simpl. discriminate.
Qed.

(** C3, amended: a call of [add], [move_end] or [offset] that raises (for
    [offset], the TypeError) leaves the list as it was; a call of [sort]
    that raises leaves the bounds and the flag as they were, and the
    fragments stably sorted, a permutation of what they were. *)
Theorem failed_calls_state :
  (forall fragment flag s e s',
      add fragment flag s = (Raise e, s') -> s' = s)
  /\ (forall index value s e s',
      move_end index value s = (Raise e, s') -> s' = s)
  /\ (forall o s msg s',
      offset o s = (Raise (TypeError msg), s') -> s' = s)
  /\ (forall s e s',
      sort s = (Raise e, s') ->
      begin s' = begin s /\ end_ s' = end_ s /\ __sorted s' = __sorted s
      /\ __fragments s' = sorted (__fragments s)
      /\ Permutation (__fragments s) (__fragments s')).
Proof.
  split; [|split; [|split]].
  - exact add_raise_state.
  - exact move_end_raise_state.
  - exact offset_type_error_state.
  - intros s e s' H. destruct (sort_raise_state s e s' H) as [Hs ->].
    simpl. repeat split; auto. apply sorted_permutation.
Qed.

Lemma failed_calls_state_witness :
  add (Fragment (mkFragment (TimeInterval.mk 1 3) "b")) true list_0_2
  = (Raise (ValueError "interval overlaps another already present interval"),
     list_0_2)
  /\ list_0_2 = list_0_2.
Proof.
  assert (H : add (Fragment (mkFragment (TimeInterval.mk 1 3) "b")) true list_0_2
              = (Raise (ValueError "interval overlaps another already present interval"),
                 list_0_2))
    by (vm_compute; reflexivity).
  split; [exact H|].
  exact (proj1 failed_calls_state _ _ _ _ _ H).
Defined.

(** ** The repair on the examples *)

(** C4: with offset 0.001 over the index range [0, n), the repair turns
    [[0,0), [0,2)]] of a list ending at 2 into [[0,0.001), [0.001,2)]], and
    [[0,0), [0,0), [0,2)]] into [[0,0.001), [0.001,0.002), [0.002,2)]];
    nothing else of the list changes. *)
Theorem fix_zero_length_intervals_examples
    (b : option TimeValue) (flag : bool) (p1 p2 p3 : string) :
  (exists s',
     fix_zero_length_intervals (1 # 1000) (Some 0%Z) (Some 2%Z)
       (mkList b (Some 2) flag
          [mkFragment (TimeInterval.mk 0 0) p1;
           mkFragment (TimeInterval.mk 0 2) p2])
     = (Return tt, s')
     /\ begin s' = b /\ end_ s' = Some 2 /\ __sorted s' = flag
     /\ map payload (__fragments s') = [p1; p2]
     /\ Forall2 TimeInterval.eq (map interval (__fragments s'))
          [TimeInterval.mk 0 (1 # 1000); TimeInterval.mk (1 # 1000) 2])
  /\ (exists s',
     fix_zero_length_intervals (1 # 1000) (Some 0%Z) (Some 3%Z)
       (mkList b (Some 2) flag
          [mkFragment (TimeInterval.mk 0 0) p1;
           mkFragment (TimeInterval.mk 0 0) p2;
           mkFragment (TimeInterval.mk 0 2) p3])
     = (Return tt, s')
     /\ begin s' = b /\ end_ s' = Some 2 /\ __sorted s' = flag
     /\ map payload (__fragments s') = [p1; p2; p3]
     /\ Forall2 TimeInterval.eq (map interval (__fragments s'))
          [TimeInterval.mk 0 (1 # 1000);
           TimeInterval.mk (1 # 1000) (2 # 1000);
           TimeInterval.mk (2 # 1000) 2]).
Proof.
  split.
  - eexists. split; [vm_compute; reflexivity|]. simpl.
    repeat split; repeat constructor.
  - eexists. split; [vm_compute; reflexivity|]. simpl.
    repeat split; repeat constructor.
Qed.

(** ** The loops of the repair end *)

Lemma walk_index_grows n offset max_index :
  forall j slack moves s j' slack' moves' s',
  walk n offset max_index j slack moves s
  = (Return (j', slack', moves'), s') ->
  (j <= j')%Z.
Proof.
  induction n as [|n IH]; intros j slack moves s j' slack' moves' s'; simpl.
  - unfold ret. intros H. injection H as <- _ _ _. lia.
  - destruct (j <? max_index)%Z.
    + unfold bind at 1.
      destruct (__getitem__ j s) as [[fj|e] s1]; [|discriminate].
      destruct (TV.ltb _ slack).
      * destruct (TimeInterval.has_zero_length _); intros H;
          apply IH in H; lia.
      * unfold ret. intros H. injection H as <- _ _ _. lia.
    + unfold ret. intros H. injection H as <- _ _ _. lia.
Qed.

Lemma bind_returns {A B} (m : M A) (k : A -> M B) s b s' :
  bind m k s = (Return b, s') ->
  exists a s1, m s = (Return a, s1) /\ k a s1 = (Return b, s').
Proof.
  unfold bind. destruct (m s) as [[a|e] s1]; [|discriminate].
  intros H. exists a, s1. auto.
Qed.

Lemma fix_at_index_grows offset max_index i s j s' :
  fix_at offset max_index i s = (Return j, s') -> (i + 1 <= j)%Z.
Proof.
  unfold fix_at. intros H.
  apply bind_returns in H. destruct H as [[[j0 slack] moves] [s1 [Ew H]]].
  apply walk_index_grows in Ew.
  apply bind_returns in H. destruct H as [fixable [s2 [_ H]]].
  apply bind_returns in H. destruct H as [[] [s3 [_ H]]].
  unfold ret in H. injection H as <- _. exact Ew.
Qed.

Lemma bind_ext {A B} (m : M A) (k k' : A -> M B) s :
  (forall a s1, m s = (Return a, s1) -> k a s1 = k' a s1) ->
  bind m k s = bind m k' s.
Proof.
  intros H. unfold bind. destruct (m s) as [[a|e] s1]; [|reflexivity].
  apply H. reflexivity.
Qed.

Lemma scan_fuel_irrelevant offset max_index :
  forall fuel fuel' i s,
  (Z.to_nat (max_index - i) <= fuel)%nat ->
  (Z.to_nat (max_index - i) <= fuel')%nat ->
  scan fuel offset max_index i s = scan fuel' offset max_index i s.
Proof.
  induction fuel as [|fuel IH]; intros fuel' i s H H'.
  - destruct fuel' as [|fuel']; simpl; [reflexivity|].
    destruct (i <? max_index)%Z eqn:E; [apply Z.ltb_lt in E; lia|reflexivity].
  - destruct fuel' as [|fuel']; simpl.
    + destruct (i <? max_index)%Z eqn:E; [apply Z.ltb_lt in E; lia|reflexivity].
    + destruct (i <? max_index)%Z eqn:E; [|reflexivity].
      apply Z.ltb_lt in E. apply bind_ext. intros fi s1 _.
      destruct (TimeInterval.has_zero_length (interval fi)).
      * apply bind_ext. intros j s2 Ef.
        apply fix_at_index_grows in Ef. apply IH; lia.
      * apply IH; lia.
Qed.

(** With the turns counted from [i], [scan] is the [while] loop of the
    source: one turn of the body, then the loop again. *)
Lemma scan_unfold offset max_index i s :
  scan (Z.to_nat (max_index - i)) offset max_index i s
  = if (i <? max_index)%Z then
      (fi <- __getitem__ i ;;
       if TimeInterval.has_zero_length (interval fi) then
         j <- fix_at offset max_index i ;;
         scan (Z.to_nat (max_index - (j - 1 + 1))) offset max_index
              (j - 1 + 1)%Z
       else scan (Z.to_nat (max_index - (i + 1))) offset max_index (i + 1)%Z) s
    else (Return tt, s).
Proof.
  destruct (i <? max_index)%Z eqn:E.
  - apply Z.ltb_lt in E.
    destruct (Z.to_nat (max_index - i)) as [|fuel] eqn:Ef; [lia|].
    simpl. apply Z.ltb_lt in E. rewrite E. apply Z.ltb_lt in E.
    apply bind_ext. intros fi s1 _.
    destruct (TimeInterval.has_zero_length (interval fi)).
    + apply bind_ext. intros j s2 Efix.
      apply fix_at_index_grows in Efix.
      apply scan_fuel_irrelevant; lia.
    + apply scan_fuel_irrelevant; lia.
  - apply Z.ltb_ge in E.
    replace (Z.to_nat (max_index - i)) with O by lia. reflexivity.
Qed.

(** * Further properties of the operations *)

(** ** Moving a shared boundary, on a list with both bounds *)

Lemma move_end_applies_pre s b e index value d :
  move_end_applies s b e index value d = true
  <-> move_end_pre s b e index value d.
Proof.
  unfold move_end_applies, move_end_pre, TimeInterval.is_adjacent_before.
  rewrite !andb_true_iff, !negb_true_iff.
  rewrite TVFacts.ltb_false, !TVFacts.gtb_false, TVFacts.eqb_spec.
  rewrite Z.leb_le, Z.ltb_lt. tauto.
Qed.

Lemma map_payload_list_set l k i d :
  map payload (list_set l k (mkFragment i (payload (nth k l d))))
  = map payload l.
Proof.
  revert k. induction l as [|f l IH]; intros [|k]; simpl; try reflexivity.
  rewrite IH. reflexivity.
Qed.

Lemma boundary_moved_frame s k value d :
  same_frame s (boundary_moved s k value d).
Proof.
  unfold same_frame, boundary_moved. simpl. repeat split.
  destruct (Nat.lt_ge_cases (S k) (List.length (__fragments s))) as [H|H].
  - set (l1 := list_set (__fragments s) k _).
    assert (E : payload (nth (S k) (__fragments s) d) = payload (nth (S k) l1 d)).
    { unfold l1. rewrite nth_list_set_neq by lia. reflexivity. }
    rewrite E. rewrite map_payload_list_set. unfold l1.
    apply map_payload_list_set.
  - set (l1 := list_set (__fragments s) k _).
    assert (E : payload (nth (S k) (__fragments s) d) = payload (nth (S k) l1 d)).
    { unfold l1. rewrite nth_list_set_neq by lia. reflexivity. }
    rewrite E. rewrite map_payload_list_set. unfold l1.
    apply map_payload_list_set.
Qed.

(** X1: on a list with both bounds set [move_end] never raises.  When the
    value is within the bounds, the index pair is in range, the value is
    not after the end of the next fragment and the two fragments are
    adjacent, it sets the end of the fragment at [index] and the begin of
    the next one to the value and changes nothing else; in every other
    case the list is unchanged. *)
Theorem move_end_moves_boundary
    (s : SyncMapFragmentList) (b e : TimeValue) (index : Z)
    (value : TimeValue) (d : SyncMapFragment) :
  begin s = Some b -> end_ s = Some e ->
  exists s',
    move_end index value s = (Return tt, s')
    /\ same_frame s s'
    /\ List.length (__fragments s') = List.length (__fragments s)
    /\ (~ move_end_pre s b e index value d -> s' = s)
    /\ (move_end_pre s b e index value d ->
        interval (nth (Z.to_nat index) (__fragments s') d)
        = TimeInterval.mk
            (TimeInterval.begin
               (interval (nth (Z.to_nat index) (__fragments s) d)))
            value
        /\ interval (nth (Z.to_nat (index + 1)) (__fragments s') d)
           = TimeInterval.mk value
               (TimeInterval.end_
                  (interval (nth (Z.to_nat (index + 1)) (__fragments s) d)))
        /\ forall k, k <> Z.to_nat index -> k <> Z.to_nat (index + 1) ->
             nth k (__fragments s') d = nth k (__fragments s) d).
Proof.
  intros Hb He. rewrite (move_end_bounded s b e index value d Hb He).
  pose proof (move_end_applies_pre s b e index value d) as Hiff.
  destruct (move_end_applies s b e index value d).
  - assert (Hpre : move_end_pre s b e index value d) by (apply Hiff; reflexivity).
    destruct Hpre as (_ & _ & H0 & Hlen & _ & _).
    eexists. split; [reflexivity|]. split; [apply boundary_moved_frame|].
    split; [simpl; rewrite !length_list_set; reflexivity|].
    split; [intros Hn; exfalso; apply Hn; apply Hiff; reflexivity|].
    intros _. simpl.
    replace (Z.to_nat (index + 1)) with (S (Z.to_nat index)) by lia.
    split; [|split].
    + rewrite nth_list_set_neq by lia.
      rewrite nth_list_set_eq by lia. reflexivity.
    + rewrite nth_list_set_eq by (rewrite length_list_set; lia). reflexivity.
    + intros k Hk1 Hk2. rewrite !nth_list_set_neq by congruence. reflexivity.
  - exists s. split; [reflexivity|]. split; [repeat split|].
    split; [reflexivity|]. split; [reflexivity|].
    intros Hpre. apply Hiff in Hpre. discriminate.
Qed.

Lemma move_end_moves_boundary_witness :
  exists s',
    move_end 0 (3 # 2)
      (mkList (Some 0) (Some 2) true (__fragments open_ended_list))
    = (Return tt, s')
    /\ interval (nth 0 (__fragments s') fragment_5_6)
       = TimeInterval.mk 0 (3 # 2)
    /\ interval (nth 1 (__fragments s') fragment_5_6)
       = TimeInterval.mk (3 # 2) 2.
Proof.
  destruct (move_end_moves_boundary
              (mkList (Some 0) (Some 2) true (__fragments open_ended_list))
              0 2 0 (3 # 2) fragment_5_6 eq_refl eq_refl)
    as [s' (Hr & _ & _ & _ & Hm)].
  exists s'. split; [exact Hr|].
  assert (Hpre : move_end_pre
            (mkList (Some 0) (Some 2) true (__fragments open_ended_list))
            0 2 0 (3 # 2) fragment_5_6).
  { unfold move_end_pre. simpl. repeat split; try discriminate; lia. }
  destruct (Hm Hpre) as (H1 & H2 & _). split; [exact H1 | exact H2].
Defined.

Lemma Forall_list_set {A} (P : A -> Prop) (l : list A) k a :
  Forall P l -> P a -> Forall P (list_set l k a).
Proof.
  intros Hl Ha. revert k.
  induction Hl as [|x l Hx Hl IH]; intros [|k]; simpl; constructor; auto.
Qed.

Lemma within_boundaries_bounds s s' f :
  begin s' = begin s -> end_ s' = end_ s ->
  within_boundaries s f -> within_boundaries s' f.
Proof.
  unfold within_boundaries. intros -> ->. auto.
Qed.

(** X2: with both bounds set, a value that meets the preconditions of
    [move_end] but is before the begin of the fragment at [index] is not
    refused: the fragment is left with its end before its begin. *)
Theorem move_end_below_begin
    (s : SyncMapFragmentList) (b e : TimeValue) (index : Z)
    (value : TimeValue) (d : SyncMapFragment) :
  begin s = Some b -> end_ s = Some e ->
  move_end_pre s b e index value d ->
  value < TimeInterval.begin
            (interval (nth (Z.to_nat index) (__fragments s) d)) ->
  exists s',
    move_end index value s = (Return tt, s')
    /\ ~ TimeInterval.wf (interval (nth (Z.to_nat index) (__fragments s') d)).
Proof.
  intros Hb He Hpre Hlt.
  rewrite (move_end_bounded s b e index value d Hb He).
  rewrite (proj2 (move_end_applies_pre s b e index value d) Hpre).
  destruct Hpre as (_ & _ & H0 & Hlen & _ & _).
  eexists. split; [reflexivity|]. simpl.
  rewrite nth_list_set_neq by lia. rewrite nth_list_set_eq by lia.
  unfold TimeInterval.wf. simpl. lra.
Qed.

Lemma move_end_below_begin_witness :
  exists s',
    move_end 0 0 list_1_2_3 = (Return tt, s')
    /\ ~ TimeInterval.wf (interval (nth 0 (__fragments s') fragment_5_6)).
Proof.
  apply (move_end_below_begin list_1_2_3 0 5 0 0 fragment_5_6).
  - reflexivity.
  - reflexivity.
  - unfold move_end_pre. simpl. repeat split; try discriminate; lia.
  - reflexivity.
Defined.

(** X3: [move_end] keeps every fragment within the bounds of the list,
    whether it moves the boundary, does nothing or raises. *)
Theorem move_end_keeps_bounds
    (s s' : SyncMapFragmentList) (index : Z) (value : TimeValue)
    (r : Result unit) :
  all_within s -> move_end index value s = (r, s') -> all_within s'.
Proof.
  intros Hall Hm.
  destruct r as [[]|e0]; [|apply move_end_raise_state in Hm; subst; exact Hall].
  destruct (begin s) as [b|] eqn:Hb.
  2:{ unfold move_end, bind, get, lt_bound, raise in Hm. rewrite Hb in Hm.
      discriminate. }
  destruct (end_ s) as [e|] eqn:He.
  2:{ unfold move_end, bind, get, lt_bound, gt_bound, ret, raise in Hm.
      rewrite Hb, He in Hm.
      destruct (TV.ltb value b); [|discriminate].
      injection Hm as <-. exact Hall. }
  set (d := mkFragment (TimeInterval.mk 0 0) EmptyString).
  rewrite (move_end_bounded s b e index value d Hb He) in Hm.
  pose proof (move_end_applies_pre s b e index value d) as Hiff.
  destruct (move_end_applies s b e index value d);
    injection Hm as <-; [|exact Hall].
  destruct (proj1 Hiff eq_refl) as (Hbv & Hve & H0 & Hlen & _ & _).
  unfold all_within in *. simpl.
  assert (Hcur : within_boundaries s (nth (Z.to_nat index) (__fragments s) d)).
  { rewrite Forall_forall in Hall. apply Hall. apply nth_In. lia. }
  assert (Hnext : within_boundaries s (nth (S (Z.to_nat index)) (__fragments s) d)).
  { rewrite Forall_forall in Hall. apply Hall. apply nth_In. lia. }
  apply Forall_list_set; [apply Forall_list_set|].
  - eapply Forall_impl; [|exact Hall]. intros f Hf.
    eapply within_boundaries_bounds; [| |exact Hf]; reflexivity.
  - destruct Hcur as [H1 H2]. split; simpl; intros x Hx.
    + apply H1. exact Hx.
    + rewrite He in Hx. injection Hx as <-. exact Hve.
  - destruct Hnext as [H1 H2]. split; simpl; intros x Hx.
    + rewrite Hb in Hx. injection Hx as <-. exact Hbv.
    + apply H2. exact Hx.
Qed.

Lemma move_end_keeps_bounds_witness :
  all_within list_1_2_3
  /\ all_within
       (mkList (Some 0) (Some 5) true
          [mkFragment (TimeInterval.mk 1 (5 # 2)) "a";
           mkFragment (TimeInterval.mk (5 # 2) 3) "b"]).
Proof.
  assert (H : all_within list_1_2_3).
  { repeat constructor; simpl; intros x Hx; injection Hx as <-; discriminate. }
  split; [exact H|].
  apply (move_end_keeps_bounds list_1_2_3 _ 0 (5 # 2) (Return tt) H).
  vm_compute. reflexivity.
Defined.

(** ** Adding *)

Lemma check_boundaries_returns s f s' :
  _check_boundaries (Fragment f) s = (Return tt, s') -> within_boundaries s f.
Proof.
  unfold _check_boundaries, bind, get, ret, raise, within_boundaries.
  destruct (begin s) as [b|]; destruct (end_ s) as [e|].
  - destruct (TV.ltb _ b) eqn:E1; [discriminate|].
    destruct (TV.gtb _ e) eqn:E2; [discriminate|]. tv_prop.
    intros _. split; intros x Hx; injection Hx as <-; assumption.
  - destruct (TV.ltb _ b) eqn:E1; [discriminate|]. tv_prop.
    intros _. split; intros x Hx; [injection Hx as <-; assumption|discriminate].
  - destruct (TV.gtb _ e) eqn:E2; [discriminate|]. tv_prop.
    intros _. split; intros x Hx; [discriminate|injection Hx as <-; assumption].
  - intros _. split; intros x Hx; discriminate.
Qed.

(** What a call of [add] that returns has done. *)
Lemma add_returns s f flag s' :
  add (Fragment f) flag s = (Return tt, s') ->
  within_boundaries s f
  /\ s' = mkList (begin s) (end_ s) (if flag then true else false)
            (if flag then insort (__fragments s) f else __fragments s ++ [f]).
Proof.
  intros H.
  assert (Hw : within_boundaries s f).
  { unfold add in H. apply bind_returns in H.
    destruct H as [[] [s1 [Hc _]]]. exact (check_boundaries_returns _ _ _ Hc). }
  split; [exact Hw|]. destruct flag.
  - apply add_sorted_returns in H. destruct H as (_ & _ & ->). reflexivity.
  - unfold add, bind in H. rewrite (check_boundaries_within s f Hw) in H.
    unfold set_fragments, set_sorted, bind, get, put in H. simpl in H.
    injection H as <-. reflexivity.
Qed.

(** X4: after a call of [add] that returns, with either value of [sort],
    the fragments are those of before and the new one, each exactly once:
    nothing is lost or duplicated, and the length has grown by one. *)
Theorem add_permutation
    (s s' : SyncMapFragmentList) (f : SyncMapFragment) (flag : bool) :
  add (Fragment f) flag s = (Return tt, s') ->
  Permutation (f :: __fragments s) (__fragments s')
  /\ List.length (__fragments s') = S (List.length (__fragments s))
  /\ begin s' = begin s /\ end_ s' = end_ s.
Proof.
  intros H. destruct (add_returns s f flag s' H) as [_ ->]. simpl.
  assert (Hp : Permutation (f :: __fragments s)
                 (if flag then insort (__fragments s) f
                  else __fragments s ++ [f])).
  { destruct flag.
    - rewrite insort_split.
      rewrite <- (firstn_skipn (bisect_right (__fragments s) f) (__fragments s))
        at 1.
      apply Permutation_middle.
    - apply Permutation_cons_append. }
  split; [exact Hp|]. split; [|auto].
  apply Permutation_length in Hp. simpl in Hp. symmetry. exact Hp.
Qed.

Lemma add_permutation_witness :
  Permutation (fragment_7_8 :: [fragment_5_6; fragment_8_9])
              [fragment_5_6; fragment_7_8; fragment_8_9]
  /\ List.length [fragment_5_6; fragment_7_8; fragment_8_9] = 3%nat
  /\ Some 0 = Some 0 /\ @None TimeValue = None.
Proof.
  apply (add_permutation
           (mkList (Some 0) None true [fragment_5_6; fragment_8_9])
           (mkList (Some 0) None true [fragment_5_6; fragment_7_8; fragment_8_9])
           fragment_7_8 true).
  vm_compute. reflexivity.
Defined.

(** X5: [add] keeps every fragment within the bounds of the list, with
    either value of [sort]. *)
Theorem add_keeps_bounds
    (s s' : SyncMapFragmentList) (f : SyncMapFragment) (flag : bool) :
  all_within s -> add (Fragment f) flag s = (Return tt, s') -> all_within s'.
Proof.
  intros Hall H. destruct (add_returns s f flag s' H) as [Hw ->].
  unfold all_within in *. simpl.
  assert (Hall' : Forall (within_boundaries s) (f :: __fragments s))
    by (constructor; assumption).
  assert (Hp : Permutation (f :: __fragments s)
                 (if flag then insort (__fragments s) f
                  else __fragments s ++ [f])).
  { destruct flag.
    - rewrite insort_split.
      rewrite <- (firstn_skipn (bisect_right (__fragments s) f) (__fragments s))
        at 1.
      apply Permutation_middle.
    - apply Permutation_cons_append. }
  eapply Forall_impl; [|exact (Permutation_Forall Hp Hall')].
  intros g Hg. eapply within_boundaries_bounds; [| |exact Hg]; reflexivity.
Qed.

Lemma add_keeps_bounds_witness :
  all_within (mkList (Some 0) (Some 9) true [fragment_5_6; fragment_8_9])
  /\ all_within
       (mkList (Some 0) (Some 9) true [fragment_5_6; fragment_7_8; fragment_8_9]).
Proof.
  assert (H : all_within (mkList (Some 0) (Some 9) true [fragment_5_6; fragment_8_9])).
  { repeat constructor; simpl; intros x Hx; injection Hx as <-; discriminate. }
  split; [exact H|].
  apply (add_keeps_bounds _ _ fragment_7_8 true H).
  vm_compute. reflexivity.
Defined.

(** X6: [add] checks the type and the bounds of the fragment before it
    looks at [sort] or at the flag of the list: what is not a fragment, or
    has no interval, is a TypeError; a fragment that begins before the
    begin of the list, or ends after its end, is a ValueError; the list is
    unchanged. *)
Theorem add_checks_fragment_first
    (s : SyncMapFragmentList) (f : SyncMapFragment) (flag : bool)
    (r : string) :
  add (NotAFragment r) flag s
  = (Raise (TypeError "fragment is not an instance of SyncMapFragment"), s)
  /\ add (FragmentWithoutInterval r) flag s
     = (Raise (TypeError "interval is not an instance of TimeInterval"), s)
  /\ (forall b, begin s = Some b ->
        TimeInterval.begin (interval f) < b ->
        add (Fragment f) flag s
        = (Raise (ValueError "interval.begin is before self.begin"), s))
  /\ (forall e, end_ s = Some e ->
        e < TimeInterval.end_ (interval f) ->
        (forall b, begin s = Some b -> b <= TimeInterval.begin (interval f)) ->
        add (Fragment f) flag s
        = (Raise (ValueError "interval.end is after self.end"), s)).
Proof.
  split; [reflexivity|]. split; [reflexivity|]. split.
  - intros b Hb Hlt. unfold add, bind, _check_boundaries, bind, get, raise.
    rewrite Hb.
    destruct (TV.ltb (TimeInterval.begin (interval f)) b) eqn:E;
      [reflexivity|]. tv_prop. lra.
  - intros e He Hlt Hbegin.
    unfold add, bind, _check_boundaries, bind, get, raise. rewrite He.
    destruct (begin s) as [b|].
    + destruct (TV.ltb (TimeInterval.begin (interval f)) b) eqn:E.
      * tv_prop. specialize (Hbegin b eq_refl). lra.
      * destruct (TV.gtb (TimeInterval.end_ (interval f)) e) eqn:E2;
          [reflexivity|]. tv_prop. lra.
    + destruct (TV.gtb (TimeInterval.end_ (interval f)) e) eqn:E2;
        [reflexivity|]. tv_prop. lra.
Qed.

Lemma add_checks_fragment_first_witness :
  add (Fragment (mkFragment (TimeInterval.mk 0 2) "ab")) true
      (mkList (Some 1) (Some 4) false [])
  = (Raise (ValueError "interval.begin is before self.begin"),
     mkList (Some 1) (Some 4) false []).
Proof.
  apply (proj1 (proj2 (proj2 (add_checks_fragment_first
           (mkList (Some 1) (Some 4) false [])
           (mkFragment (TimeInterval.mk 0 2) "ab") true EmptyString))) 1).
  - reflexivity.
  - reflexivity.
Defined.

(** X7: a sorted insertion into a list that is not flagged as sorted is
    refused with a ValueError, whatever the fragments are, and the list is
    unchanged. *)
Theorem add_sorted_needs_flag (s : SyncMapFragmentList) (f : SyncMapFragment) :
  __sorted s = false ->
  within_boundaries s f ->
  add (Fragment f) true s
  = (Raise (ValueError
       "Unable to add with sort=True if the list is not guaranteed sorted"),
     s).
Proof.
  intros Hs Hw. unfold add, bind.
  rewrite (check_boundaries_within s f Hw).
  unfold is_guaranteed_sorted, bind, get, ret, raise. rewrite Hs. reflexivity.
Qed.

Lemma add_sorted_needs_flag_witness :
  add (Fragment fragment_8_9) true (mkList (Some 0) None false [fragment_5_6])
  = (Raise (ValueError
       "Unable to add with sort=True if the list is not guaranteed sorted"),
     mkList (Some 0) None false [fragment_5_6]).
Proof.
  apply (add_sorted_needs_flag (mkList (Some 0) None false [fragment_5_6])
           fragment_8_9).
  - reflexivity.
  - split; simpl; intros x Hx; [injection Hx as <-|]; discriminate.
Defined.

(** X8: when the intervals are well formed and [add(f, sort=True)]
    returns, the interval of [f] shares no more than a boundary point with
    the interval of any fragment of the list; in particular a fragment of
    zero length strictly inside an existing interval is refused. *)
Theorem add_sorted_accepts_only_touching
    (s s' : SyncMapFragmentList) (f : SyncMapFragment) :
  Forall (fun g => TimeInterval.wf (interval g)) (__fragments s) ->
  TimeInterval.wf (interval f) ->
  add (Fragment f) true s = (Return tt, s') ->
  Forall (fun g => touching_only (interval g) (interval f)) (__fragments s).
Proof.
  intros Hwf Hf H. apply add_sorted_returns in H. destruct H as (_ & Ho & _).
  pose proof (overlaps_any_false _ _ Ho) as Hall.
  rewrite Forall_forall in *. intros g Hg.
  apply (allowed_pair_touching _ _ (Hwf g Hg) Hf). apply Hall. exact Hg.
Qed.

Lemma add_sorted_accepts_only_touching_witness :
  Forall (fun g => touching_only (interval g) (interval fragment_7_8))
         [fragment_5_6; fragment_8_9].
Proof.
  apply (add_sorted_accepts_only_touching
           (mkList (Some 0) None true [fragment_5_6; fragment_8_9])
           (mkList (Some 0) None true [fragment_5_6; fragment_7_8; fragment_8_9])
           fragment_7_8).
  - repeat constructor; discriminate.
  - discriminate.
  - vm_compute. reflexivity.
Defined.

(** ** Where the sorted insertion puts the fragment *)

Lemma insort_split_sorted a x :
  ascending a ->
  exists l1 l2,
    a = l1 ++ l2 /\ insort a x = l1 ++ x :: l2
    /\ Forall (fun y => fragment_ltb x y = false) l1
    /\ Forall (fun y => fragment_ltb x y = true) l2.
Proof.
  intros Ha.
  assert (Hs : StronglySorted fragment_le a)
    by (apply Sorted_StronglySorted; [exact fragment_le_trans | exact Ha]).
  destruct (bisect_right_bisected a x Hs) as [Hr [Hlo Hhi]].
  exists (firstn (bisect_right a x) a), (skipn (bisect_right a x) a).
  set (r := bisect_right a x) in *.
  split; [symmetry; apply firstn_skipn|]. split; [reflexivity|]. split.
  - apply Forall_forall. intros y Hy.
    destruct (In_nth _ _ x Hy) as [k [Hk <-]].
    rewrite length_firstn in Hk. rewrite nth_firstn.
    assert (E : (k <? r)%nat = true) by (apply Nat.ltb_lt; lia).
    rewrite E. apply Hlo. lia.
  - apply Forall_forall. intros y Hy.
    destruct (In_nth _ _ x Hy) as [k [Hk <-]].
    rewrite length_skipn in Hk. rewrite nth_skipn. apply Hhi. lia.
Qed.

(** X9: in a list in ascending order, the sorted insertion puts the new
    fragment after every fragment that is not greater, those equal in the
    order included, and before every fragment that is greater; the list is
    in ascending order afterwards. *)
Theorem insort_right_of_equals
    (a : list SyncMapFragment) (x : SyncMapFragment) :
  ascending a ->
  ascending (insort a x)
  /\ exists l1 l2,
       a = l1 ++ l2 /\ insort a x = l1 ++ x :: l2
       /\ Forall (fun y => fragment_ltb x y = false) l1
       /\ Forall (fun y => fragment_ltb x y = true) l2.
Proof.
  intros Ha. split.
  - apply insort_ascending. exact Ha.
  - destruct (insort_split_sorted a x Ha) as (l1 & l2 & H).
    exists l1, l2. exact H.
Qed.

Lemma insort_right_of_equals_witness :
  ascending (insort [fragment_5_6; fragment_7_8]
               (mkFragment (TimeInterval.mk 5 6) "again"))
  /\ exists l1 l2,
    [fragment_5_6; fragment_7_8] = l1 ++ l2
    /\ insort [fragment_5_6; fragment_7_8]
         (mkFragment (TimeInterval.mk 5 6) "again")
       = l1 ++ mkFragment (TimeInterval.mk 5 6) "again" :: l2
    /\ Forall (fun y => fragment_ltb (mkFragment (TimeInterval.mk 5 6) "again") y
                        = false) l1
    /\ Forall (fun y => fragment_ltb (mkFragment (TimeInterval.mk 5 6) "again") y
                        = true) l2.
Proof.
  apply (insort_right_of_equals [fragment_5_6; fragment_7_8]
           (mkFragment (TimeInterval.mk 5 6) "again")).
  repeat constructor.
Defined.

(** ** Sorting *)

Lemma insert_after_le_ascending x l :
  ascending l -> ascending (insert_after_le x l).
Proof.
  unfold ascending. induction l as [|y l IH]; intros Hs; simpl.
  - repeat constructor.
  - destruct (fragment_ltb x y) eqn:E.
    + constructor; [exact Hs|]. constructor. apply fragment_ltb_asym. exact E.
    + inversion Hs as [|? ? Hs' Hhd]; subst.
      constructor; [apply IH; exact Hs'|].
      destruct l as [|z l]; simpl.
      * constructor. exact E.
      * destruct (fragment_ltb x z).
        -- constructor. exact E.
        -- inversion Hhd; subst. constructor. assumption.
Qed.

Lemma sorted_ascending l : ascending (sorted l).
Proof.
  unfold sorted.
  assert (H : forall acc, ascending acc ->
                ascending (fold_left (fun acc x => insert_after_le x acc) l acc)).
  { induction l as [|x l IH]; intros acc Hacc; simpl; [exact Hacc|].
    apply IH. apply insert_after_le_ascending. exact Hacc. }
  apply H. constructor.
Qed.

Lemma check_adjacent_loop_eq l s :
  (adjacent_allowed l /\ check_adjacent_loop l s = (Return tt, s))
  \/ (~ adjacent_allowed l
      /\ check_adjacent_loop l s
         = (Raise (ValueError
              "The list contains two time intervals overlapping in a forbidden way"),
            s)).
Proof.
  unfold adjacent_allowed.
  induction l as [|f l IH]; [left; split; [constructor|reflexivity]|].
  destruct l as [|g l]; [left; split; [repeat constructor|reflexivity]|].
  change (check_adjacent_loop (f :: g :: l) s)
    with ((if negb (allowed_pair (interval f) (interval g))
           then raise (ValueError
             "The list contains two time intervals overlapping in a forbidden way")
           else check_adjacent_loop (g :: l)) s).
  destruct (allowed_pair (interval f) (interval g)) eqn:E; simpl.
  - destruct IH as [[Ha Hc]|[Ha Hc]].
    + left. split; [|exact Hc]. constructor; [exact Ha|]. constructor. exact E.
    + right. split; [|exact Hc]. intros H. apply Ha.
      inversion H; assumption.
  - right. split; [|reflexivity]. intros H.
    inversion H as [|? ? _ Hhd]; subst. inversion Hhd; subst. congruence.
Qed.

Lemma sort_unsorted_eq s :
  __sorted s = false ->
  sort s
  = match check_adjacent_loop (sorted (__fragments s))
            (mkList (begin s) (end_ s) false (sorted (__fragments s))) with
    | (Return _, _) =>
        (Return tt, mkList (begin s) (end_ s) true (sorted (__fragments s)))
    | (Raise e, _) =>
        (Raise e, mkList (begin s) (end_ s) false (sorted (__fragments s)))
    end.
Proof.
  intros Hs. destruct s as [b e flag l]. simpl in Hs. subst flag.
  unfold sort, is_guaranteed_sorted, bind, get, ret, set_fragments,
    set_sorted, put. simpl.
  destruct (check_adjacent_loop _ _) as [[[]|e0] s1] eqn:Ec;
    apply check_adjacent_loop_state in Ec; subst s1; reflexivity.
Qed.

(** X10: a call of [sort()] on a list not flagged as sorted that returns
    leaves the list flagged, its fragments in ascending order with every
    adjacent pair in an allowed position, and the fragments are those of
    before, each exactly once; the bounds are unchanged. *)
Theorem sort_establishes_invariant (s s' : SyncMapFragmentList) :
  __sorted s = false ->
  sort s = (Return tt, s') ->
  __sorted s' = true
  /\ ascending (__fragments s')
  /\ adjacent_allowed (__fragments s')
  /\ Permutation (__fragments s) (__fragments s')
  /\ begin s' = begin s /\ end_ s' = end_ s.
Proof.
  intros Hs H. rewrite (sort_unsorted_eq s Hs) in H.
  destruct (check_adjacent_loop_eq (sorted (__fragments s))
              (mkList (begin s) (end_ s) false (sorted (__fragments s))))
    as [[Ha Hc]|[Ha Hc]]; rewrite Hc in H; [|discriminate].
  injection H as <-. simpl. split; [reflexivity|].
  split; [apply sorted_ascending|]. split; [exact Ha|].
  split; [apply sorted_permutation|]. auto.
Qed.

Lemma sort_establishes_invariant_witness :
  __sorted two_sorted = true
  /\ ascending (__fragments two_sorted)
  /\ adjacent_allowed (__fragments two_sorted)
  /\ Permutation (__fragments two_appended) (__fragments two_sorted)
  /\ begin two_sorted = begin two_appended
  /\ end_ two_sorted = end_ two_appended.
Proof.
  apply (sort_establishes_invariant two_appended two_sorted).
  - reflexivity.
  - vm_compute. reflexivity.
Defined.

Lemma strongly_sorted_before l1 x l2 :
  StronglySorted fragment_le (l1 ++ x :: l2) ->
  Forall (fun y => fragment_le y x) l1.
Proof.
  induction l1 as [|y l1 IH]; simpl; intros H; [constructor|].
  inversion H as [|? ? Hs Hall]; subst. constructor.
  - rewrite Forall_forall in Hall. apply Hall.
    apply in_or_app. right. left. reflexivity.
  - apply IH. exact Hs.
Qed.

Lemma insert_after_le_split x l1 l2 :
  Forall (fun y => fragment_ltb x y = false) l1 ->
  Forall (fun y => fragment_ltb x y = true) l2 ->
  insert_after_le x (l1 ++ l2) = l1 ++ x :: l2.
Proof.
  intros H1 H2. induction H1 as [|y l1 Hy H1 IH]; simpl.
  - destruct H2 as [|z l2 Hz H2]; simpl; [reflexivity|]. rewrite Hz. reflexivity.
  - rewrite Hy. rewrite IH. reflexivity.
Qed.

Lemma fold_insert_after_le_sorted l :
  forall acc, StronglySorted fragment_le (acc ++ l) ->
  fold_left (fun acc x => insert_after_le x acc) l acc = acc ++ l.
Proof.
  induction l as [|x l IH]; intros acc Hs; simpl.
  - rewrite app_nil_r. reflexivity.
  - pose proof (strongly_sorted_before acc x l Hs) as Hb.
    pose proof (insert_after_le_split x acc [] Hb (Forall_nil _)) as E.
    rewrite app_nil_r in E. rewrite E.
    rewrite IH.
    + rewrite <- app_assoc. reflexivity.
    + rewrite <- app_assoc. exact Hs.
Qed.

Lemma sorted_ascending_id l : ascending l -> sorted l = l.
Proof.
  intros Ha. unfold sorted.
  apply (fold_insert_after_le_sorted l []). simpl.
  apply Sorted_StronglySorted; [exact fragment_le_trans | exact Ha].
Qed.

(** X11: on a list whose fragments are already in ascending order,
    [sort()] leaves the sequence of the fragments as it is, whether the
    list is flagged or not and whether the call returns or raises. *)
Theorem sort_keeps_ascending_sequence
    (s s' : SyncMapFragmentList) (r : Result unit) :
  ascending (__fragments s) ->
  sort s = (r, s') ->
  __fragments s' = __fragments s.
Proof.
  intros Ha H. destruct (__sorted s) eqn:Hs.
  - rewrite (sort_sorted_noop s Hs) in H. injection H as _ <-. reflexivity.
  - rewrite (sort_unsorted_eq s Hs) in H.
    destruct (check_adjacent_loop _ _) as [[[]|e] s1];
      injection H as _ <-; simpl; apply sorted_ascending_id; exact Ha.
Qed.

Lemma sort_keeps_ascending_sequence_witness :
  sort overlapping_in_order
  = (Raise (ValueError
       "The list contains two time intervals overlapping in a forbidden way"),
     overlapping_in_order)
  /\ __fragments overlapping_in_order = __fragments overlapping_in_order.
Proof.
  assert (H : sort overlapping_in_order
              = (Raise (ValueError
                   "The list contains two time intervals overlapping in a forbidden way"),
                 overlapping_in_order))
    by (vm_compute; reflexivity).
  split; [exact H|].
  apply (sort_keeps_ascending_sequence _ _ _
           (ltac:(repeat constructor) : ascending (__fragments overlapping_in_order))
           H).
Defined.

Lemma insert_after_le_insort a x :
  ascending a -> insert_after_le x a = insort a x.
Proof.
  intros Ha.
  destruct (insort_split_sorted a x Ha) as (l1 & l2 & -> & -> & H1 & H2).
  apply insert_after_le_split; assumption.
Qed.

Lemma sorted_app_one l x :
  sorted (l ++ [x]) = insert_after_le x (sorted l).
Proof. unfold sorted. rewrite fold_left_app. reflexivity. Qed.

(** X12: on a list in ascending order with every adjacent pair in an
    allowed position, when the sorted insertion of a fragment returns, the
    unchecked append of the same fragment followed by [sort()] returns too
    and gives the same list. *)
Theorem add_unsorted_then_sort
    (s s1 : SyncMapFragmentList) (f : SyncMapFragment) :
  ascending (__fragments s) ->
  adjacent_allowed (__fragments s) ->
  add (Fragment f) true s = (Return tt, s1) ->
  (add (Fragment f) false ;; sort) s = (Return tt, s1).
Proof.
  intros Ha Hp H.
  destruct (add_returns s f true s1 H) as [Hw ->].
  apply add_sorted_returns in H. destruct H as (Hs & Ho & _).
  unfold bind at 1.
  assert (E : add (Fragment f) false s
              = (Return tt,
                 mkList (begin s) (end_ s) false (__fragments s ++ [f]))).
  { unfold add, bind. rewrite (check_boundaries_within s f Hw). reflexivity. }
  rewrite E. rewrite sort_unsorted_eq by reflexivity. simpl.
  rewrite sorted_app_one, (sorted_ascending_id _ Ha),
    (insert_after_le_insort _ _ Ha).
  destruct (check_adjacent_loop_eq (insort (__fragments s) f)
              (mkList (begin s) (end_ s) false (insort (__fragments s) f)))
    as [[_ Hc]|[Hn _]].
  - rewrite Hc. reflexivity.
  - exfalso. apply Hn. apply insort_adjacent_allowed; assumption.
Qed.

Lemma add_unsorted_then_sort_witness :
  (add (Fragment fragment_7_8) false ;; sort)
    (mkList (Some 0) None true [fragment_5_6; fragment_8_9])
  = (Return tt,
     mkList (Some 0) None true [fragment_5_6; fragment_7_8; fragment_8_9]).
Proof.
  apply (add_unsorted_then_sort
           (mkList (Some 0) None true [fragment_5_6; fragment_8_9])).
  - repeat constructor.
  - repeat constructor.
  - vm_compute. reflexivity.
Defined.

(** ** What the invariant of a sorted list gives *)

Lemma adjacent_end_before_begin f g :
  TimeInterval.wf (interval f) -> TimeInterval.wf (interval g) ->
  fragment_le f g ->
  allowed_pair (interval f) (interval g) = true ->
  TimeInterval.end_ (interval f) <= TimeInterval.begin (interval g).
Proof.
  intros Hf Hg Hle Ha.
  apply (allowed_pair_touching _ _ Hf Hg) in Ha.
  unfold fragment_le in Hle. rewrite fragment_ltb_false in Hle.
  unfold TimeInterval.wf in *.
  destruct Ha as [Ha|Ha]; [exact Ha|].
  destruct Hle as [Hle|[Hle1 Hle2]]; lra.
Qed.

(** X13: in a list in ascending order whose intervals are well formed, if
    every adjacent pair is in an allowed position then every fragment ends
    no later than any fragment after it begins, so that any two fragments
    of the list are in an allowed position: checking the adjacent pairs, as
    [sort()] does, excludes every overlap. *)
Theorem adjacent_check_excludes_overlaps (l : list SyncMapFragment) :
  ascending l ->
  adjacent_allowed l ->
  Forall (fun f => TimeInterval.wf (interval f)) l ->
  StronglySorted
    (fun f g =>
       TimeInterval.end_ (interval f) <= TimeInterval.begin (interval g)
       /\ allowed_pair (interval f) (interval g) = true) l.
Proof.
  unfold ascending, adjacent_allowed.
  induction l as [|f l IH]; intros Ha Hp Hwf; [constructor|].
  inversion Ha as [|? ? Ha' Hhd]; subst.
  inversion Hp as [|? ? Hp' Hhd']; subst.
  inversion Hwf as [|? ? Hf Hwf']; subst.
  specialize (IH Ha' Hp' Hwf').
  constructor; [exact IH|].
  destruct l as [|g l]; [constructor|].
  inversion Hhd; subst. inversion Hhd'; subst.
  inversion Hwf' as [|? ? Hg Hwf'']; subst.
  inversion IH as [|? ? _ Hall]; subst.
  assert (Hfg : TimeInterval.end_ (interval f) <= TimeInterval.begin (interval g))
    by (apply adjacent_end_before_begin; assumption).
  constructor.
  - split; [exact Hfg|]. assumption.
  - rewrite Forall_forall in *. intros h Hh.
    destruct (Hall h Hh) as [Hgh _].
    assert (Hfh : TimeInterval.end_ (interval f) <= TimeInterval.begin (interval h)).
    { unfold TimeInterval.wf in Hg. lra. }
    split; [exact Hfh|].
    apply (allowed_pair_touching _ _ Hf (Hwf'' h Hh)). left. exact Hfh.
Qed.

Lemma adjacent_check_excludes_overlaps_witness :
  StronglySorted
    (fun f g =>
       TimeInterval.end_ (interval f) <= TimeInterval.begin (interval g)
       /\ allowed_pair (interval f) (interval g) = true)
    [fragment_5_6; fragment_7_8; fragment_8_9].
Proof.
  apply adjacent_check_excludes_overlaps.
  - repeat constructor.
  - repeat constructor.
  - repeat constructor; discriminate.
Defined.

(** ** Indexing at a known position *)

Lemma getitem_app b e flag l1 x l2 :
  __getitem__ (Z.of_nat (List.length l1)) (mkList b e flag (l1 ++ x :: l2))
  = (Return x, mkList b e flag (l1 ++ x :: l2)).
Proof.
  rewrite (getitem_valid _ _ x)
    by (simpl; rewrite length_app; simpl; lia).
  simpl. rewrite Nat2Z.id, nth_middle. reflexivity.
Qed.

Lemma list_set_app {A} (l1 : list A) x l2 a :
  list_set (l1 ++ x :: l2) (List.length l1) a = l1 ++ a :: l2.
Proof. induction l1 as [|y l1 IH]; simpl; [reflexivity|]. rewrite IH. reflexivity. Qed.

Lemma setitem_app b e flag l1 x l2 v :
  __setitem__ (Z.of_nat (List.length l1)) v (mkList b e flag (l1 ++ x :: l2))
  = (Return tt, mkList b e flag (l1 ++ v :: l2)).
Proof.
  rewrite setitem_valid by (simpl; rewrite length_app; simpl; lia).
  simpl. rewrite Nat2Z.id, list_set_app. reflexivity.
Qed.

Lemma update_interval_app b e flag l1 x l2 g :
  update_interval (Z.of_nat (List.length l1)) g
    (mkList b e flag (l1 ++ x :: l2))
  = (Return tt,
     mkList b e flag (l1 ++ mkFragment (g (interval x)) (payload x) :: l2)).
Proof.
  unfold update_interval, bind. rewrite getitem_app, setitem_app. reflexivity.
Qed.

(** ** Offsetting by a time value *)

Lemma offset_loop_app d b e flag :
  forall todo done,
  exists todo',
    offset_loop (List.length todo) (Z.of_nat (List.length done))
      (PyTimeValue d) (mkList b e flag (done ++ todo))
    = (Return tt, mkList b e flag (done ++ todo'))
    /\ Forall2
         (fun f f' =>
            payload f' = payload f
            /\ TimeInterval.offset (PyTimeValue d) false b e (interval f)
               = Return (interval f'))
         todo todo'.
Proof.
  induction todo as [|x todo IH]; intros done; simpl.
  - exists []. split; [reflexivity|constructor].
  - unfold bind at 1. unfold get at 1. simpl.
    unfold bind at 1. rewrite getitem_app.
    unfold bind at 1. rewrite setitem_app.
    set (x' := mkFragment _ (payload x)).
    destruct (IH (done ++ [x'])) as [todo' [Hl Hf]].
    rewrite length_app in Hl. simpl in Hl.
    rewrite Nat2Z.inj_add in Hl. simpl in Hl.
    rewrite <- !app_assoc in Hl. simpl in Hl.
    exists (x' :: todo'). split; [exact Hl|].
    constructor; [|exact Hf]. split; reflexivity.
Qed.

(** X14: [offset] with a time value never raises: it replaces the interval
    of every fragment by what [TimeInterval.offset], called with the bounds
    of the list and without allowing negative values, makes of it, and
    changes nothing else (bounds, flag, payloads, order, length). *)
Theorem offset_time_value (d : TimeValue) (s : SyncMapFragmentList) :
  exists l',
    offset (PyTimeValue d) s
    = (Return tt, mkList (begin s) (end_ s) (__sorted s) l')
    /\ Forall2
         (fun f f' =>
            payload f' = payload f
            /\ TimeInterval.offset (PyTimeValue d) false (begin s) (end_ s)
                 (interval f)
               = Return (interval f'))
         (__fragments s) l'.
Proof.
  destruct s as [b e flag l]. unfold offset, bind, get. simpl.
  destruct (offset_loop_app d b e flag l []) as [l' [Hl Hf]].
  exists l'. split; [exact Hl | exact Hf].
Qed.

(** ** Indexed access *)

Lemma index_position_negative (len index : Z) :
  (- len <= index < 0)%Z ->
  index_position len index = Some (Z.to_nat (index + len)).
Proof.
  intros H. unfold index_position.
  destruct (index <? 0)%Z eqn:E; [|apply Z.ltb_ge in E; lia].
  destruct (0 <=? index + len)%Z eqn:E1; [|apply Z.leb_gt in E1; lia].
  destruct (index + len <? len)%Z eqn:E2; [|apply Z.ltb_ge in E2; lia].
  reflexivity.
Qed.

Lemma index_position_outside (len index : Z) :
  (index < - len \/ len <= index)%Z -> (0 <= len)%Z ->
  index_position len index = None.
Proof.
  intros H Hl. unfold index_position.
  destruct (index <? 0)%Z eqn:E.
  - apply Z.ltb_lt in E.
    destruct (0 <=? index + len)%Z eqn:E1; [apply Z.leb_le in E1; lia|].
    reflexivity.
  - apply Z.ltb_ge in E.
    destruct (index <? len)%Z eqn:E2; [apply Z.ltb_lt in E2; lia|].
    rewrite andb_false_r. reflexivity.
Qed.

Lemma index_position_in_range (len index : Z) k :
  index_position len index = Some k -> (Z.of_nat k < len)%Z.
Proof.
  unfold index_position.
  destruct (index <? 0)%Z.
  - destruct (0 <=? index + len)%Z eqn:E1; [|discriminate].
    destruct (index + len <? len)%Z eqn:E2; [|discriminate].
    apply Z.leb_le in E1. apply Z.ltb_lt in E2.
    simpl. intros H. injection H as <-. lia.
  - destruct (0 <=? index)%Z eqn:E1; [|discriminate].
    destruct (index <? len)%Z eqn:E2; [|discriminate].
    apply Z.leb_le in E1. apply Z.ltb_lt in E2.
    simpl. intros H. injection H as <-. lia.
Qed.

(** X15: an index from [-len] to [len - 1] denotes a fragment, the negative
    ones counting from the end: after [self[index] = value] the call
    [self[index]] returns [value], the length, the bounds and the flag are
    unchanged, and [self[index]] with a negative index is
    [self[index + len]].  Any other index is an IndexError for both, and
    the list is unchanged. *)
Theorem setitem_getitem
    (s : SyncMapFragmentList) (index : Z) (value : SyncMapFragment) :
  let len := Z.of_nat (List.length (__fragments s)) in
  ((- len <= index < len)%Z ->
     exists s',
       __setitem__ index value s = (Return tt, s')
       /\ __getitem__ index s' = (Return value, s')
       /\ List.length (__fragments s') = List.length (__fragments s)
       /\ begin s' = begin s /\ end_ s' = end_ s /\ __sorted s' = __sorted s)
  /\ ((- len <= index < 0)%Z ->
      __getitem__ index s = __getitem__ (index + len) s)
  /\ ((index < - len \/ len <= index)%Z ->
      __getitem__ index s
      = (Raise (IndexError "list index out of range"), s)
      /\ __setitem__ index value s
         = (Raise (IndexError "list assignment index out of range"), s)).
Proof.
  intros len. split; [|split].
  - intros H.
    assert (Hp : exists k, index_position len index = Some k
                           /\ (k < List.length (__fragments s))%nat).
    { destruct (Z.lt_ge_cases index 0).
      - exists (Z.to_nat (index + len)).
        split; [apply index_position_negative|]; unfold len in *; lia.
      - exists (Z.to_nat index).
        split; [apply index_position_valid|]; unfold len in *; lia. }
    destruct Hp as [k [Hk Hlt]].
    eexists. split; [|split].
    + unfold __setitem__, bind, get. fold len. rewrite Hk.
      unfold set_fragments, bind, get, put. reflexivity.
    + unfold __getitem__, bind, get. simpl. rewrite length_list_set.
      fold len. rewrite Hk.
      rewrite (nth_error_nth' _ value) by (rewrite length_list_set; exact Hlt).
      rewrite nth_list_set_eq by exact Hlt. reflexivity.
    + simpl. rewrite length_list_set. auto.
  - intros H. unfold __getitem__, bind, get. fold len.
    rewrite (index_position_negative len index) by lia.
    rewrite (index_position_valid len (index + len)) by lia. reflexivity.
  - intros H.
    assert (Hn : index_position len index = None)
      by (apply index_position_outside; unfold len in *; lia).
    unfold __getitem__, __setitem__, bind, get, raise. fold len.
    rewrite Hn. split; reflexivity.
Qed.

Lemma setitem_getitem_witness :
  exists s',
    __setitem__ (-1) fragment_1_2
      (mkList (Some 0) None true [fragment_5_6; fragment_7_8])
    = (Return tt, s')
    /\ __getitem__ (-1) s' = (Return fragment_1_2, s')
    /\ List.length (__fragments s') = 2%nat
    /\ begin s' = Some 0 /\ end_ s' = None /\ __sorted s' = true.
Proof.
  apply (proj1 (setitem_getitem
           (mkList (Some 0) None true [fragment_5_6; fragment_7_8])
           (-1) fragment_1_2)).
  simpl. lia.
Defined.

(** ** What the operations on intervals leave alone *)

Lemma same_frame_refl s : same_frame s s.
Proof. repeat split. Qed.

Lemma same_frame_trans s1 s2 s3 :
  same_frame s1 s2 -> same_frame s2 s3 -> same_frame s1 s3.
Proof.
  intros (A1 & A2 & A3 & A4) (B1 & B2 & B3 & B4).
  repeat split; congruence.
Qed.

Lemma keeps_ret {A} (a : A) : keeps_frame (ret a).
Proof. intros s r s' H. injection H as _ <-. apply same_frame_refl. Qed.

Lemma keeps_raise {A} e : keeps_frame (@raise A e).
Proof. intros s r s' H. injection H as _ <-. apply same_frame_refl. Qed.

Lemma keeps_get : keeps_frame get.
Proof. intros s r s' H. injection H as _ <-. apply same_frame_refl. Qed.

Lemma keeps_bind {A B} (m : M A) (k : A -> M B) :
  keeps_frame m -> (forall a, keeps_frame (k a)) -> keeps_frame (bind m k).
Proof.
  intros Hm Hk s r s' H. unfold bind in H.
  destruct (m s) as [[a|e] s1] eqn:Em.
  - eapply same_frame_trans; [exact (Hm _ _ _ Em)|exact (Hk a _ _ _ H)].
  - injection H as _ <-. exact (Hm _ _ _ Em).
Qed.

Lemma getitem_inv index s r s' :
  __getitem__ index s = (r, s') ->
  s' = s
  /\ forall f, r = Return f ->
       exists p,
         index_position (Z.of_nat (List.length (__fragments s))) index = Some p
         /\ nth_error (__fragments s) p = Some f.
Proof.
  unfold __getitem__, bind, get, ret, raise.
  destruct (index_position _ index) as [p|].
  - destruct (nth_error (__fragments s) p) as [g|] eqn:En; intros H;
      injection H as <- <-; (split; [reflexivity|]); intros f Hf;
      [|discriminate].
    injection Hf as <-. exists p. auto.
  - intros H. injection H as <- <-. split; [reflexivity|]. discriminate.
Qed.

Lemma keeps_getitem index : keeps_frame (__getitem__ index).
Proof.
  intros s r s' H. apply getitem_inv in H. destruct H as [-> _].
  apply same_frame_refl.
Qed.

Lemma map_payload_list_set_nth_error l p f i :
  nth_error l p = Some f ->
  map payload (list_set l p (mkFragment i (payload f))) = map payload l.
Proof.
  revert p. induction l as [|g l IH]; intros [|p] H; simpl in *;
    try discriminate.
  - injection H as ->. reflexivity.
  - rewrite (IH p H). reflexivity.
Qed.

Lemma setitem_payload_frame index s f i r s' :
  __getitem__ index s = (Return f, s) ->
  __setitem__ index (mkFragment i (payload f)) s = (r, s') ->
  same_frame s s'.
Proof.
  intros Hg Hs. apply getitem_inv in Hg. destruct Hg as [_ Hg].
  destruct (Hg f eq_refl) as [p [Hp Hn]].
  unfold __setitem__, bind, get in Hs. rewrite Hp in Hs.
  unfold set_fragments, bind, get, put in Hs. injection Hs as _ <-.
  repeat split. simpl. apply map_payload_list_set_nth_error. exact Hn.
Qed.

Lemma keeps_update_interval index g : keeps_frame (update_interval index g).
Proof.
  intros s r s' H. unfold update_interval, bind in H.
  destruct (__getitem__ index s) as [[f|e] s1] eqn:Eg.
  - pose proof (proj1 (getitem_inv _ _ _ _ Eg)) as ->.
    exact (setitem_payload_frame _ _ _ _ _ _ Eg H).
  - injection H as _ <-. exact (keeps_getitem _ _ _ _ Eg).
Qed.

Lemma keeps_bound (c : TimeValue -> option TimeValue -> M bool) v o :
  c = lt_bound \/ c = gt_bound \/ c = le_bound -> keeps_frame (c v o).
Proof.
  intros [-> | [-> | ->]]; destruct o; simpl;
    first [apply keeps_ret | apply keeps_raise].
Qed.

Lemma keeps_walk n offset max_index :
  forall j slack moves, keeps_frame (walk n offset max_index j slack moves).
Proof.
  induction n as [|n IH]; intros j slack moves; simpl; [apply keeps_ret|].
  destruct (j <? max_index)%Z; [|apply keeps_ret].
  apply keeps_bind; [apply keeps_getitem|]. intros fj.
  destruct (TV.ltb _ slack); [|apply keeps_ret].
  destruct (TimeInterval.has_zero_length _); apply IH.
Qed.

Lemma keeps_replay moves :
  forall current_time, keeps_frame (replay moves current_time).
Proof.
  induction moves as [|[[index move_type] move_amount] moves IH];
    intros current_time; simpl; [apply keeps_ret|].
  apply keeps_bind; [apply keeps_update_interval|]. intros _.
  apply keeps_bind.
  - destruct move_type; [destruct move_amount|];
      first [apply keeps_update_interval | apply keeps_ret].
  - intros _. apply keeps_bind; [apply keeps_getitem|]. intros f. apply IH.
Qed.

Lemma keeps_fix_at offset max_index i : keeps_frame (fix_at offset max_index i).
Proof.
  unfold fix_at. apply keeps_bind; [apply keeps_walk|].
  intros [[j slack] moves]. apply keeps_bind.
  - destruct (j =? max_index)%Z.
    + apply keeps_bind; [apply keeps_getitem|]. intros last.
      apply keeps_bind; [apply keeps_get|]. intros s.
      apply keeps_bind; [apply keeps_bound; auto|]. intros fits.
      destruct fits; apply keeps_ret.
    + destruct (j <? max_index)%Z; [|apply keeps_ret].
      apply keeps_bind; [apply keeps_update_interval|]. intros _.
      apply keeps_bind; [apply keeps_getitem|]. intros fj. apply keeps_ret.
  - intros fixable. apply keeps_bind; [|intros _; apply keeps_ret].
    destruct fixable; [apply keeps_replay|apply keeps_ret].
Qed.

Lemma keeps_scan fuel offset max_index :
  forall i, keeps_frame (scan fuel offset max_index i).
Proof.
  induction fuel as [|fuel IH]; intros i; simpl; [apply keeps_ret|].
  destruct (i <? max_index)%Z; [|apply keeps_ret].
  apply keeps_bind; [apply keeps_getitem|]. intros fi.
  destruct (TimeInterval.has_zero_length _); [|apply IH].
  apply keeps_bind; [apply keeps_fix_at|]. intros j. apply IH.
Qed.

Lemma keeps_offset_loop n o : forall k, keeps_frame (offset_loop n k o).
Proof.
  induction n as [|n IH]; intros k; simpl; [apply keeps_ret|].
  intros s r s' H. unfold bind at 1 in H. unfold get at 1 in H.
  unfold bind at 1 in H.
  destruct (__getitem__ k s) as [[f|e] s1] eqn:Eg.
  - pose proof (proj1 (getitem_inv _ _ _ _ Eg)) as ->.
    destruct (TimeInterval.offset o false (begin s) (end_ s) (interval f))
      as [i|e].
    + unfold bind in H.
      destruct (__setitem__ k (mkFragment i (payload f)) s) as [[[]|e] s2] eqn:Es.
      * eapply same_frame_trans;
          [exact (setitem_payload_frame _ _ _ _ _ _ Eg Es)|exact (IH _ _ _ _ H)].
      * injection H as _ <-. exact (setitem_payload_frame _ _ _ _ _ _ Eg Es).
    + injection H as _ <-. apply same_frame_refl.
  - injection H as _ <-. exact (keeps_getitem _ _ _ _ Eg).
Qed.

Lemma keeps_move_end index value : keeps_frame (move_end index value).
Proof.
  unfold move_end. apply keeps_bind; [apply keeps_get|]. intros s.
  apply keeps_bind; [apply keeps_bound; auto|]. intros below.
  destruct below; [apply keeps_ret|].
  apply keeps_bind; [apply keeps_bound; auto|]. intros above.
  destruct above; [apply keeps_ret|].
  apply keeps_bind.
  { unfold __len__. apply keeps_bind; [apply keeps_get|]. intros s0.
    apply keeps_ret. }
  intros len. destruct (_ || _)%bool; [apply keeps_ret|].
  apply keeps_bind; [apply keeps_getitem|]. intros current_fragment.
  apply keeps_bind; [apply keeps_getitem|]. intros next_fragment.
  destruct (_ || _)%bool; [apply keeps_ret|].
  apply keeps_bind; [apply keeps_update_interval|]. intros _.
  apply keeps_update_interval.
Qed.

(** X16: [move_end], [offset] and [fix_zero_length_intervals] change the
    intervals of the fragments at most.  Whatever their arguments and the
    list, and whether they return or raise, the bounds, the flag and the
    sequence of the payloads, hence the number and the order of the
    fragments, are those of before. *)
Theorem interval_operations_frame (s s' : SyncMapFragmentList)
    (r : Result unit) :
  (forall index value, move_end index value s = (r, s') -> same_frame s s')
  /\ (forall o, offset o s = (r, s') -> same_frame s s')
  /\ (forall amount min_index max_index,
        fix_zero_length_intervals amount min_index max_index s = (r, s') ->
        same_frame s s')
  /\ (same_frame s s' ->
      List.length (__fragments s') = List.length (__fragments s)).
Proof.
  split; [|split; [|split]].
  - intros index value H. exact (keeps_move_end index value _ _ _ H).
  - intros o H. unfold offset in H.
    refine (keeps_bind get _ keeps_get _ _ _ _ H).
    intros s0. apply keeps_offset_loop.
  - intros amount min_index max_index H. unfold fix_zero_length_intervals in H.
    refine (keeps_bind __len__ _ _ _ _ _ _ H).
    + unfold __len__. apply keeps_bind; [apply keeps_get|]. intros s0.
      apply keeps_ret.
    + intros len. apply keeps_scan.
  - intros (_ & _ & _ & Hp).
    rewrite <- (length_map payload (__fragments s')), Hp. apply length_map.
Qed.

Lemma interval_operations_frame_witness :
  same_frame list_1_2_3
    (mkList (Some 0) (Some 5) true
       [mkFragment (TimeInterval.mk 1 (5 # 2)) "a";
        mkFragment (TimeInterval.mk (5 # 2) 3) "b"]).
Proof.
  apply (proj1 (interval_operations_frame list_1_2_3 _ (Return tt)) 0%Z (5 # 2)).
  vm_compute. reflexivity.
Defined.

(** ** The repair of zero-length intervals *)

Lemma scan_skip offset max_index s d :
  forall n i,
  (0 <= i)%Z ->
  (i + Z.of_nat n <= max_index)%Z ->
  (i + Z.of_nat n <= Z.of_nat (List.length (__fragments s)))%Z ->
  (forall p, (Z.to_nat i <= p < Z.to_nat i + n)%nat ->
     TimeInterval.has_zero_length (interval (nth p (__fragments s) d)) = false) ->
  scan (Z.to_nat (max_index - i)) offset max_index i s
  = scan (Z.to_nat (max_index - (i + Z.of_nat n))) offset max_index
      (i + Z.of_nat n)%Z s.
Proof.
  induction n as [|n IH]; intros i H0 Hmax Hlen Hnz.
  - simpl. rewrite Z.add_0_r. reflexivity.
  - rewrite scan_unfold.
    destruct (i <? max_index)%Z eqn:E; [|apply Z.ltb_ge in E; lia].
    unfold bind. rewrite (getitem_valid s i d) by lia.
    rewrite Hnz by lia.
    rewrite IH; try lia.
    + replace (i + 1 + Z.of_nat n)%Z with (i + Z.of_nat (S n))%Z by lia.
      reflexivity.
    + intros p Hp. apply Hnz. lia.
Qed.

Lemma scan_done offset max_index i s :
  (max_index <= i)%Z ->
  scan (Z.to_nat (max_index - i)) offset max_index i s = (Return tt, s).
Proof.
  intros H. replace (Z.to_nat (max_index - i)) with O by lia. reflexivity.
Qed.

Lemma no_zero_length_nth l d p :
  no_zero_length l -> (p < List.length l)%nat ->
  TimeInterval.has_zero_length (interval (nth p l d)) = false.
Proof.
  unfold no_zero_length. rewrite Forall_forall. intros H Hp.
  apply H. apply nth_In. exact Hp.
Qed.

(** X17: on a list without any fragment of zero length, the repair over an
    index range within the list changes nothing; over a range that goes
    beyond the end of the list it reads one fragment too far and raises an
    IndexError, the list unchanged. *)
Theorem fix_zero_length_intervals_nothing_to_repair
    (amount : TimeValue) (min_index max_index : option Z)
    (s : SyncMapFragmentList) :
  let len := Z.of_nat (List.length (__fragments s)) in
  no_zero_length (__fragments s) ->
  (0 <= or_default min_index 0)%Z ->
  ((or_default max_index len <= len)%Z ->
     fix_zero_length_intervals amount min_index max_index s = (Return tt, s))
  /\ ((or_default min_index 0 <= len < or_default max_index len)%Z ->
      fix_zero_length_intervals amount min_index max_index s
      = (Raise (IndexError "list index out of range"), s)).
Proof.
  intros len Hnz Hlo.
  set (d := mkFragment (TimeInterval.mk 0 0) EmptyString).
  unfold fix_zero_length_intervals, __len__, bind, get, ret. fold len.
  set (lo := or_default min_index 0) in *.
  set (hi := or_default max_index len) in *.
  split.
  - intros Hhi. destruct (Z.le_gt_cases hi lo) as [H|H].
    + apply scan_done. exact H.
    + rewrite (scan_skip amount hi s d (Z.to_nat (hi - lo)) lo);
        try (rewrite Z2Nat.id by lia; fold len; lia); [|exact Hlo|].
      * apply scan_done. rewrite Z2Nat.id; lia.
      * intros p Hp. apply no_zero_length_nth; [exact Hnz|]. unfold len in *. lia.
  - intros Hhi.
    rewrite (scan_skip amount hi s d (Z.to_nat (len - lo)) lo);
      try (rewrite Z2Nat.id by lia; fold len; lia); [|exact Hlo|].
    + rewrite Z2Nat.id by lia. replace (lo + (len - lo))%Z with len by lia.
      rewrite scan_unfold.
      destruct (len <? hi)%Z eqn:E; [|apply Z.ltb_ge in E; lia].
      unfold bind, __getitem__, bind, get, raise. fold len.
      rewrite index_position_outside by (unfold len; lia). reflexivity.
    + intros p Hp. apply no_zero_length_nth; [exact Hnz|]. unfold len in *. lia.
Qed.

Lemma fix_zero_length_intervals_nothing_to_repair_witness :
  fix_zero_length_intervals (1 # 1000) None None list_1_2_3
  = (Return tt, list_1_2_3)
  /\ fix_zero_length_intervals (1 # 1000) None (Some 3%Z) list_1_2_3
     = (Raise (IndexError "list index out of range"), list_1_2_3).
Proof.
  assert (Hnz : no_zero_length (__fragments list_1_2_3))
    by (repeat constructor).
  split.
  - apply (proj1 (fix_zero_length_intervals_nothing_to_repair
             (1 # 1000) None None list_1_2_3 Hnz ltac:(simpl; lia))).
    simpl. lia.
  - apply (proj2 (fix_zero_length_intervals_nothing_to_repair
             (1 # 1000) None (Some 3%Z) list_1_2_3 Hnz ltac:(simpl; lia))).
    simpl. lia.
Defined.

Lemma getitem_app1 b e flag l1 z x l2 :
  __getitem__ (Z.of_nat (List.length l1) + 1)
    (mkList b e flag (l1 ++ z :: x :: l2))
  = (Return x, mkList b e flag (l1 ++ z :: x :: l2)).
Proof.
  replace (Z.of_nat (List.length l1) + 1)%Z
    with (Z.of_nat (List.length (l1 ++ [z])))
    by (rewrite length_app; simpl; lia).
  change (l1 ++ z :: x :: l2) with (l1 ++ [z] ++ x :: l2).
  rewrite app_assoc. apply getitem_app.
Qed.

Lemma update_interval_app1 b e flag l1 z x l2 g :
  update_interval (Z.of_nat (List.length l1) + 1) g
    (mkList b e flag (l1 ++ z :: x :: l2))
  = (Return tt,
     mkList b e flag
       (l1 ++ z :: mkFragment (g (interval x)) (payload x) :: l2)).
Proof.
  replace (Z.of_nat (List.length l1) + 1)%Z
    with (Z.of_nat (List.length (l1 ++ [z])))
    by (rewrite length_app; simpl; lia).
  change (l1 ++ z :: x :: l2) with (l1 ++ [z] ++ x :: l2).
  rewrite app_assoc, update_interval_app, <- app_assoc. reflexivity.
Qed.

Lemma bind_step {A B} (m : M A) (k : A -> M B) s a s1 :
  m s = (Return a, s1) -> bind m k s = k a s1.
Proof. intros H. unfold bind. rewrite H. reflexivity. Qed.

Lemma bind_step2 {A B C} (m : M A) (k0 : A -> M B) (k : B -> M C) s a s1 :
  m s = (Return a, s1) -> bind (bind m k0) k s = bind (k0 a) k s1.
Proof. intros H. unfold bind. rewrite H. reflexivity. Qed.

Lemma bind_ret {A B} (a : A) (k : A -> M B) s : bind (ret a) k s = k a s.
Proof. reflexivity. Qed.

Lemma bind_ret2 {A B C} (a : A) (k0 : A -> M B) (k : B -> M C) s :
  bind (bind (ret a) k0) k s = bind (k0 a) k s.
Proof. reflexivity. Qed.

Lemma fix_at_donor amount b e flag l1 z d0 l2 :
  TV.ltb (TimeInterval.length (interval d0)) amount = false ->
  fix_at amount (Z.of_nat (List.length (l1 ++ z :: d0 :: l2)))
    (Z.of_nat (List.length l1)) (mkList b e flag (l1 ++ z :: d0 :: l2))
  = (Return (Z.of_nat (List.length l1) + 1)%Z,
     mkList b e flag
       (l1 ++ repaired (TimeInterval.begin (interval d0) + amount) amount z
           :: shrunk amount d0 :: l2)).
Proof.
  intros Hlen. unfold fix_at.
  assert (Hmax : Z.of_nat (List.length (l1 ++ z :: d0 :: l2))
                 = (Z.of_nat (List.length l1) + 2 + Z.of_nat (List.length l2))%Z).
  { rewrite length_app. simpl. lia. }
  set (max_index := Z.of_nat (List.length (l1 ++ z :: d0 :: l2))) in *.
  assert (E1 : (Z.of_nat (List.length l1) + 1 <? max_index)%Z = true)
    by (apply Z.ltb_lt; lia).
  assert (E2 : (Z.of_nat (List.length l1) + 1 =? max_index)%Z = false)
    by (apply Z.eqb_neq; lia).
  replace (Z.to_nat (max_index - (Z.of_nat (List.length l1) + 1)))
    with (S (List.length l2)) by lia.
  cbn [walk]. rewrite E1.
  rewrite (bind_step2 _ _ _ _ _ _ (getitem_app1 b e flag l1 z d0 l2)).
  rewrite Hlen. cbv iota. rewrite bind_ret. cbv beta iota.
  rewrite E2, E1.
  rewrite (bind_step2 _ _ _ _ _ _
             (update_interval_app1 b e flag l1 z d0 l2
                (TimeInterval.shrink amount))).
  rewrite (bind_step2 _ _ _ _ _ _ (getitem_app1 b e flag l1 z _ l2)).
  rewrite bind_ret. cbv beta iota. cbn [rev app replay].
  rewrite (bind_step2 _ _ _ _ _ _ (update_interval_app b e flag l1 z _ _)).
  rewrite (bind_step2 _ _ _ _ _ _ (update_interval_app b e flag l1 _ _ _)).
  rewrite (bind_step2 _ _ _ _ _ _ (getitem_app b e flag l1 _ _)).
  reflexivity.
Qed.

(** With no time to give, the repaired fragment is the interval of length
    [amount] that ends at [current_time]. *)
Lemma repaired_interval current_time amount z :
  TimeInterval.has_zero_length (interval z) = true ->
  TimeInterval.eq (interval (repaired current_time amount z))
                  (TimeInterval.mk (current_time - amount) current_time).
Proof.
  unfold TimeInterval.has_zero_length, TimeInterval.length, repaired,
    TimeInterval.eq. simpl. intros H. tv_prop.
  unfold TimeInterval.length. simpl. split; lra.
Qed.

(** X18: when the only fragment of zero length is followed by a fragment
    longer than the offset, the repair over the whole list takes the offset
    from the begin of that fragment and gives it to the fragment of zero
    length, which is moved to end where the donor now begins: it becomes
    the interval of length [amount] that ends at the donor's begin plus
    [amount].  The other fragments are untouched. *)
Theorem fix_zero_length_intervals_donor
    (amount : TimeValue) (b e : option TimeValue) (flag : bool)
    (l1 l2 : list SyncMapFragment) (z d0 : SyncMapFragment) :
  no_zero_length l1 -> no_zero_length l2 ->
  TimeInterval.has_zero_length (interval z) = true ->
  amount < TimeInterval.length (interval d0) ->
  fix_zero_length_intervals amount None None
    (mkList b e flag (l1 ++ z :: d0 :: l2))
  = (Return tt,
     mkList b e flag
       (l1 ++ repaired (TimeInterval.begin (interval d0) + amount) amount z
           :: shrunk amount d0 :: l2))
  /\ TimeInterval.eq
       (interval (repaired (TimeInterval.begin (interval d0) + amount) amount z))
       (TimeInterval.mk (TimeInterval.begin (interval d0))
                        (TimeInterval.begin (interval d0) + amount)).
Proof.
  intros H1 H2 Hz Hd. split.
  2:{ pose proof (repaired_interval (TimeInterval.begin (interval d0) + amount)
                    amount z Hz) as [Ha Hb].
      split; [rewrite Ha; simpl; lra | exact Hb]. }
  set (d := mkFragment (TimeInterval.mk 0 0) EmptyString).
  unfold fix_zero_length_intervals, __len__, bind, get, ret.
  cbn [or_default __fragments]. rewrite Z.sub_0_r, Nat2Z.id.
  set (s := mkList b e flag (l1 ++ z :: d0 :: l2)).
  set (max_index := Z.of_nat (List.length (l1 ++ z :: d0 :: l2))).
  assert (Hmax : max_index
                 = (Z.of_nat (List.length l1) + 2 + Z.of_nat (List.length l2))%Z).
  { unfold max_index. rewrite length_app. simpl. lia. }
  replace (List.length (l1 ++ z :: d0 :: l2))
    with (Z.to_nat (max_index - 0)) by (unfold max_index; lia).
  rewrite (scan_skip amount max_index s d (List.length l1) 0);
    try (unfold s; simpl; fold max_index; lia).
  2:{ intros p Hp. unfold s. simpl. rewrite app_nth1 by lia.
      apply no_zero_length_nth; [exact H1|lia]. }
  rewrite Z.add_0_l. rewrite scan_unfold.
  assert (E : (Z.of_nat (List.length l1) <? max_index)%Z = true)
    by (apply Z.ltb_lt; lia).
  rewrite E. unfold bind at 1. unfold s at 1. rewrite getitem_app. rewrite Hz.
  unfold bind at 1. unfold s, max_index.
  rewrite fix_at_donor by (apply TVFacts.ltb_false; lra).
  fold max_index.
  replace (Z.of_nat (List.length l1) + 1 - 1 + 1)%Z
    with (Z.of_nat (List.length l1) + 1)%Z by lia.
  set (s1 := mkList b e flag _).
  rewrite (scan_skip amount max_index s1 d (S (List.length l2))
             (Z.of_nat (List.length l1) + 1)); try lia.
  - apply scan_done. lia.
  - unfold s1. simpl. rewrite length_app. simpl. lia.
  - intros p Hp. unfold s1. simpl.
    replace (Z.to_nat (Z.of_nat (List.length l1) + 1))
      with (S (List.length l1)) in Hp by lia.
    rewrite app_nth2 by lia.
    destruct (p - List.length l1)%nat as [|[|q]] eqn:Eq; [lia| |].
    + simpl. unfold TimeInterval.has_zero_length, TimeInterval.length in *.
      simpl. apply TVFacts.eqb_false. lra.
    + simpl. apply no_zero_length_nth; [exact H2|lia].
Qed.

Lemma fix_zero_length_intervals_donor_witness :
  fix_zero_length_intervals (1 # 2) None None
    (mkList (Some 0) None true
       [fragment_1_2; mkFragment (TimeInterval.mk 2 2) "z"; fragment_5_6])
  = (Return tt,
     mkList (Some 0) None true
       [fragment_1_2;
        repaired (5 + (1 # 2)) (1 # 2) (mkFragment (TimeInterval.mk 2 2) "z");
        shrunk (1 # 2) fragment_5_6])
  /\ TimeInterval.eq
       (interval (repaired (5 + (1 # 2)) (1 # 2)
                    (mkFragment (TimeInterval.mk 2 2) "z")))
       (TimeInterval.mk 5 (5 + (1 # 2))).
Proof.
  apply (fix_zero_length_intervals_donor (1 # 2) (Some 0) None true
           [fragment_1_2] [] (mkFragment (TimeInterval.mk 2 2) "z")
           fragment_5_6).
  - repeat constructor.
  - constructor.
  - reflexivity.
  - reflexivity.
Defined.

Lemma bind_get2 {B C} (k0 : SyncMapFragmentList -> M B) (k : B -> M C) s :
  bind (bind get k0) k s = bind (k0 s) k s.
Proof. reflexivity. Qed.

Lemma fix_at_last amount b e flag l1 z :
  fix_at amount (Z.of_nat (List.length (l1 ++ [z])))
    (Z.of_nat (List.length l1)) (mkList b e flag (l1 ++ [z]))
  = match e with
    | None =>
        (Raise (TypeError "'<=' not supported between 'TimeValue' and 'NoneType'"),
         mkList b e flag (l1 ++ [z]))
    | Some e' =>
        (Return (Z.of_nat (List.length l1) + 1)%Z,
         if TV.leb (fragment_end z + amount) e'
         then mkList b e flag
                (l1 ++ [repaired (fragment_end z + amount) amount z])
         else mkList b e flag (l1 ++ [z]))
    end.
Proof.
  unfold fix_at.
  assert (Hmax : Z.of_nat (List.length (l1 ++ [z]))
                 = (Z.of_nat (List.length l1) + 1)%Z).
  { rewrite length_app. simpl. lia. }
  rewrite Hmax.
  replace (Z.to_nat (Z.of_nat (List.length l1) + 1
                     - (Z.of_nat (List.length l1) + 1))) with O by lia.
  cbn [walk]. rewrite bind_ret. cbv beta iota.
  rewrite Z.eqb_refl.
  replace (Z.of_nat (List.length l1) + 1 - 1)%Z
    with (Z.of_nat (List.length l1)) by lia.
  rewrite (bind_step2 _ _ _ _ _ _ (getitem_app b e flag l1 z [])).
  rewrite bind_get2. cbn [end_].
  destruct e as [e'|]; [|reflexivity].
  cbn [le_bound]. rewrite bind_ret2.
  destruct (TV.leb (fragment_end z + amount) e'); [|reflexivity].
  rewrite bind_ret. cbv beta iota. cbn [rev app replay].
  rewrite (bind_step2 _ _ _ _ _ _ (update_interval_app b _ flag l1 z _ _)).
  rewrite (bind_step2 _ _ _ _ _ _ (update_interval_app b _ flag l1 _ _ _)).
  rewrite (bind_step2 _ _ _ _ _ _ (getitem_app b _ flag l1 _ _)).
  reflexivity.
Qed.

(** X19: when the only fragment of zero length is the last one, the repair
    over the whole list has no donor and looks at the end of the list.  With
    the end unset the comparison raises a TypeError; with room for the
    offset before the end, the fragment becomes the interval of length
    [amount] that begins where it was; without room nothing changes and no
    error is raised. *)
Theorem fix_zero_length_intervals_last
    (amount : TimeValue) (b e : option TimeValue) (flag : bool)
    (l1 : list SyncMapFragment) (z : SyncMapFragment) :
  no_zero_length l1 ->
  TimeInterval.has_zero_length (interval z) = true ->
  fix_zero_length_intervals amount None None (mkList b e flag (l1 ++ [z]))
  = match e with
    | None =>
        (Raise (TypeError "'<=' not supported between 'TimeValue' and 'NoneType'"),
         mkList b e flag (l1 ++ [z]))
    | Some e' =>
        (Return tt,
         if TV.leb (fragment_end z + amount) e'
         then mkList b e flag
                (l1 ++ [repaired (fragment_end z + amount) amount z])
         else mkList b e flag (l1 ++ [z]))
    end
  /\ TimeInterval.eq
       (interval (repaired (fragment_end z + amount) amount z))
       (TimeInterval.mk (TimeInterval.begin (interval z))
                        (fragment_end z + amount)).
Proof.
  intros H1 Hz. split.
  2:{ pose proof (repaired_interval (fragment_end z + amount) amount z Hz)
        as [Ha Hb].
      split; [|exact Hb]. rewrite Ha.
      unfold TimeInterval.has_zero_length, TimeInterval.length, fragment_end in *.
      simpl. tv_prop. lra. }
  set (d := mkFragment (TimeInterval.mk 0 0) EmptyString).
  unfold fix_zero_length_intervals, __len__, bind, get, ret.
  cbn [or_default __fragments]. rewrite Z.sub_0_r, Nat2Z.id.
  set (s := mkList b e flag (l1 ++ [z])).
  set (max_index := Z.of_nat (List.length (l1 ++ [z]))).
  assert (Hmax : max_index = (Z.of_nat (List.length l1) + 1)%Z).
  { unfold max_index. rewrite length_app. simpl. lia. }
  replace (List.length (l1 ++ [z]))
    with (Z.to_nat (max_index - 0)) by (unfold max_index; lia).
  rewrite (scan_skip amount max_index s d (List.length l1) 0);
    try (unfold s; simpl; fold max_index; lia).
  2:{ intros p Hp. unfold s. simpl. rewrite app_nth1 by lia.
      apply no_zero_length_nth; [exact H1|lia]. }
  rewrite Z.add_0_l. rewrite scan_unfold.
  assert (E : (Z.of_nat (List.length l1) <? max_index)%Z = true)
    by (apply Z.ltb_lt; lia).
  rewrite E. unfold s.
  rewrite (bind_step _ _ _ _ _ (getitem_app b e flag l1 z [])). rewrite Hz.
  unfold bind, max_index. rewrite fix_at_last.
  destruct e as [e'|]; [|reflexivity].
  fold max_index. apply scan_done. lia.
Qed.

Lemma fix_zero_length_intervals_last_witness :
  fix_zero_length_intervals (1 # 2) None None
    (mkList (Some 0) (Some 3) true
       [fragment_1_2; mkFragment (TimeInterval.mk 2 2) "z"])
  = (Return tt,
     mkList (Some 0) (Some 3) true
       [fragment_1_2;
        repaired (2 + (1 # 2)) (1 # 2) (mkFragment (TimeInterval.mk 2 2) "z")])
  /\ TimeInterval.eq
       (interval (repaired (2 + (1 # 2)) (1 # 2)
                    (mkFragment (TimeInterval.mk 2 2) "z")))
       (TimeInterval.mk 2 (2 + (1 # 2))).
Proof.
  apply (fix_zero_length_intervals_last (1 # 2) (Some 0) (Some 3) true
           [fragment_1_2] (mkFragment (TimeInterval.mk 2 2) "z")).
  - repeat constructor.
  - reflexivity.
Defined.

(** ** When [sort()] raises, and [move_end] twice *)

(** X20: [sort()] raises exactly when the list is not flagged as sorted and
    some adjacent pair of its fragments, once sorted, is in a forbidden
    position; the fragments of a flagged list are never looked at. *)
Theorem sort_raises_iff (s : SyncMapFragmentList) :
  (exists e s', sort s = (Raise e, s'))
  <-> __sorted s = false /\ ~ adjacent_allowed (sorted (__fragments s)).
Proof.
  split.
  - intros (e & s' & H). destruct (__sorted s) eqn:Hs.
    + rewrite (sort_sorted_noop s Hs) in H. discriminate.
    + split; [reflexivity|]. rewrite (sort_unsorted_eq s Hs) in H.
      destruct (check_adjacent_loop_eq (sorted (__fragments s))
                  (mkList (begin s) (end_ s) false (sorted (__fragments s))))
        as [[_ Hc]|[Hn _]]; [|exact Hn].
      rewrite Hc in H. discriminate.
  - intros [Hs Hn]. rewrite (sort_unsorted_eq s Hs).
    destruct (check_adjacent_loop_eq (sorted (__fragments s))
                (mkList (begin s) (end_ s) false (sorted (__fragments s))))
      as [[Ha _]|[_ Hc]]; [contradiction|].
    rewrite Hc. eauto.
Qed.

Lemma list_set_nth {A} (l : list A) k d :
  list_set l k (nth k l d) = l.
Proof.
  revert k. induction l as [|x l IH]; intros [|k]; simpl; try reflexivity.
  rewrite IH. reflexivity.
Qed.

Lemma boundary_moved_twice s k value d :
  (S k < List.length (__fragments s))%nat ->
  boundary_moved (boundary_moved s k value d) k value d
  = boundary_moved s k value d.
Proof.
  intros Hk.
  set (s1 := boundary_moved s k value d).
  assert (E1 : nth k (__fragments s1) d
               = mkFragment
                   (TimeInterval.mk
                      (TimeInterval.begin (interval (nth k (__fragments s) d)))
                      value)
                   (payload (nth k (__fragments s) d))).
  { unfold s1, boundary_moved. simpl.
    rewrite nth_list_set_neq by lia. rewrite nth_list_set_eq by lia.
    reflexivity. }
  assert (E2 : nth (S k) (__fragments s1) d
               = mkFragment
                   (TimeInterval.mk value
                      (TimeInterval.end_
                         (interval (nth (S k) (__fragments s) d))))
                   (payload (nth (S k) (__fragments s) d))).
  { unfold s1, boundary_moved. simpl.
    rewrite nth_list_set_eq by (rewrite length_list_set; lia). reflexivity. }
  assert (C1 : mkFragment
                 (TimeInterval.mk
                    (TimeInterval.begin (interval (nth k (__fragments s1) d)))
                    value)
                 (payload (nth k (__fragments s1) d))
               = nth k (__fragments s1) d)
    by (rewrite E1; reflexivity).
  assert (C2 : mkFragment
                 (TimeInterval.mk value
                    (TimeInterval.end_
                       (interval (nth (S k) (__fragments s1) d))))
                 (payload (nth (S k) (__fragments s1) d))
               = nth (S k) (__fragments s1) d)
    by (rewrite E2; reflexivity).
  unfold boundary_moved at 1. rewrite C1, C2, !list_set_nth.
  unfold s1, boundary_moved. reflexivity.
Qed.

(** X21: [move_end] is idempotent: a second call with the same index and
    value gives the same result and leaves the list as the first call left
    it. *)
Theorem move_end_idempotent
    (s s1 : SyncMapFragmentList) (index : Z) (value : TimeValue)
    (r : Result unit) :
  move_end index value s = (r, s1) ->
  move_end index value s1 = (r, s1).
Proof.
  intros H.
  destruct r as [[]|e0].
  2:{ pose proof (move_end_raise_state _ _ _ _ _ H). subst s1. exact H. }
  destruct (begin s) as [b|] eqn:Hb.
  2:{ unfold move_end, bind, get, lt_bound, raise in H. rewrite Hb in H.
      discriminate. }
  destruct (end_ s) as [e|] eqn:He.
  2:{ unfold move_end, bind, get, lt_bound, gt_bound, ret, raise in H.
      rewrite Hb, He in H. destruct (TV.ltb value b) eqn:E; [|discriminate].
      injection H as <-.
      unfold move_end, bind, get, lt_bound, ret. rewrite Hb, E. reflexivity. }
  set (d := mkFragment (TimeInterval.mk 0 0) EmptyString).
  pose proof H as H'.
  rewrite (move_end_bounded s b e index value d Hb He) in H.
  pose proof (move_end_applies_pre s b e index value d) as Hiff.
  destruct (move_end_applies s b e index value d) eqn:Ea;
    injection H as <-; [|exact H'].
  destruct (proj1 Hiff eq_refl) as (Hbv & Hve & H0 & Hlen & Hnext & Hadj).
  rewrite (move_end_bounded _ b e index value d); [|exact Hb|exact He].
  assert (Ea' : move_end_applies (boundary_moved s (Z.to_nat index) value d)
                  b e index value d = true).
  { apply move_end_applies_pre. unfold move_end_pre.
    replace (Z.to_nat (index + 1)) with (S (Z.to_nat index)) in * by lia.
    unfold boundary_moved. cbn [__fragments].
    rewrite !length_list_set.
    rewrite nth_list_set_eq by (rewrite length_list_set; lia).
    rewrite nth_list_set_neq by lia. rewrite nth_list_set_eq by lia.
    unfold fragment_end in *. simpl. repeat split; try assumption; try lia. }
  rewrite Ea'. rewrite boundary_moved_twice by lia. reflexivity.
Qed.

Lemma move_end_idempotent_witness :
  move_end 0 (5 # 2) list_1_2_3
  = (Return tt,
     mkList (Some 0) (Some 5) true
       [mkFragment (TimeInterval.mk 1 (5 # 2)) "a";
        mkFragment (TimeInterval.mk (5 # 2) 3) "b"])
  /\ move_end 0 (5 # 2)
       (mkList (Some 0) (Some 5) true
          [mkFragment (TimeInterval.mk 1 (5 # 2)) "a";
           mkFragment (TimeInterval.mk (5 # 2) 3) "b"])
     = (Return tt,
        mkList (Some 0) (Some 5) true
          [mkFragment (TimeInterval.mk 1 (5 # 2)) "a";
           mkFragment (TimeInterval.mk (5 # 2) 3) "b"]).
Proof.
  assert (H : move_end 0 (5 # 2) list_1_2_3
              = (Return tt,
                 mkList (Some 0) (Some 5) true
                   [mkFragment (TimeInterval.mk 1 (5 # 2)) "a";
                    mkFragment (TimeInterval.mk (5 # 2) 3) "b"]))
    by (vm_compute; reflexivity).
  split; [exact H|].
  exact (move_end_idempotent _ _ _ _ _ H).
Defined.
